(** * Record migration from the legacy schema to the redesigned schema

    A shallow embedding of the entity migrators (company, lead, position,
    contact): identifier normalisation, reference resolution, status
    derivation, lookup-table reconciliation and the per-record statistics
    ledger, together with the properties stated for them.

    Conventions of the embedding
    - a JavaScript string is a [string] of bytes; the helpers below act on
      the ASCII range, which is where every test of the source looks
      (hex digits, dashes, the [www.] prefix, [@]);
    - [string | null] is [option string]; JavaScript truthiness of such a
      value is [truthy] (neither null nor empty);
    - the statistics counters are [N]: the ledger of one run stays far below
      the 2^53 limit up to which JavaScript numbers count exactly;
    - the two data stores are lists of rows in store order, threaded through
      a state-and-exception monad together with the statistics ledger. *)

From Stdlib Require Import String Ascii List Bool Arith NArith ZArith Lia.
From Stdlib Require Import DecimalString.
Import ListNotations.
Local Open Scope string_scope.
Local Open Scope nat_scope.

Set Implicit Arguments.

(* ================================================================== *)
(** * String primitives of the host language *)
(* ================================================================== *)

Module Js.

(** [!s] is false exactly on a non-empty string. *)
Definition nonempty (s : string) : bool :=
  match s with EmptyString => false | String _ _ => true end.

(** Truthiness of a [string | null]. *)
Definition truthy (o : option string) : bool :=
  match o with Some s => nonempty s | None => false end.

(** [a || b] on strings where [a] may be null. *)
Definition or_else (o : option string) (d : string) : string :=
  match o with
  | Some s => if nonempty s then s else d
  | None => d
  end.

(** [a || null]. *)
Definition or_null (o : option string) : option string :=
  match o with
  | Some s => if nonempty s then Some s else None
  | None => None
  end.

Definition is_upper (c : ascii) : bool :=
  let n := nat_of_ascii c in (65 <=? n) && (n <=? 90).

Definition lower_char (c : ascii) : ascii :=
  if is_upper c then ascii_of_nat (nat_of_ascii c + 32) else c.

(** [s.toLowerCase()]. *)
Fixpoint toLowerCase (s : string) : string :=
  match s with
  | EmptyString => EmptyString
  | String c r => String (lower_char c) (toLowerCase r)
  end.

(** White space removed by [trim()], in the ASCII range. *)
Definition is_space (c : ascii) : bool :=
  let n := nat_of_ascii c in
  (n =? 32) || ((9 <=? n) && (n <=? 13)).

Fixpoint trimStart (s : string) : string :=
  match s with
  | EmptyString => EmptyString
  | String c r => if is_space c then trimStart r else s
  end.

(** Right trim: a character survives when it, or something after it,
    is not white space. *)
Fixpoint trimEnd (s : string) : string :=
  match s with
  | EmptyString => EmptyString
  | String c r =>
      match trimEnd r with
      | EmptyString => if is_space c then EmptyString else String c EmptyString
      | r' => String c r'
      end
  end.

Definition trim (s : string) : string := trimEnd (trimStart s).

(** [s.startsWith(p)]. *)
Definition startsWith (p s : string) : bool := String.prefix p s.

(** [s.substring(n)]. *)
Fixpoint drop (n : nat) (s : string) : string :=
  match n, s with
  | O, _ => s
  | S _, EmptyString => EmptyString
  | S n', String _ r => drop n' r
  end.

(** [s.substring(0, n)]. *)
Fixpoint take (n : nat) (s : string) : string :=
  match n, s with
  | O, _ => EmptyString
  | S _, EmptyString => EmptyString
  | S n', String c r => String c (take n' r)
  end.

(** [s.substring(a, b)] for [a <= b]. *)
Definition substring (a b : nat) (s : string) : string :=
  take (b - a) (drop a s).

(** [s.replace(/-/g, "")]. *)
Fixpoint remove_dashes (s : string) : string :=
  match s with
  | EmptyString => EmptyString
  | String c r =>
      if Ascii.eqb c "-" then remove_dashes r else String c (remove_dashes r)
  end.

Fixpoint repeat_char (c : ascii) (n : nat) : string :=
  match n with
  | O => EmptyString
  | S n' => String c (repeat_char c n')
  end.

(** [s.padEnd(n, c)] for a one-character filler. *)
Definition padEnd (n : nat) (c : ascii) (s : string) : string :=
  (s ++ repeat_char c (n - String.length s))%string.

(** The class [[0-9a-f]] under the [i] flag. *)
Definition is_hex_i (c : ascii) : bool :=
  let n := nat_of_ascii c in
  ((48 <=? n) && (n <=? 57)) || ((97 <=? n) && (n <=? 102))
  || ((65 <=? n) && (n <=? 70)).

(** The class [[0-9a-f]] without the flag. *)
Definition is_hex (c : ascii) : bool :=
  let n := nat_of_ascii c in
  ((48 <=? n) && (n <=? 57)) || ((97 <=? n) && (n <=? 102)).

Fixpoint all_chars (p : ascii -> bool) (s : string) : bool :=
  match s with
  | EmptyString => true
  | String c r => p c && all_chars p r
  end.

(** [/^[0-9a-f]{n}$/i.test(s)]. *)
Definition test_hex_i (n : nat) (s : string) : bool :=
  (String.length s =? n) && all_chars is_hex_i s.

(** [/^[0-9a-f]{n}$/.test(s)]. *)
Definition test_hex (n : nat) (s : string) : bool :=
  (String.length s =? n) && all_chars is_hex s.

(** [s.split(sep)] for a one-character separator. *)
Fixpoint split (sep : ascii) (s : string) : list string :=
  match s with
  | EmptyString => [EmptyString]
  | String c r =>
      if Ascii.eqb c sep then EmptyString :: split sep r
      else match split sep r with
           | [] => [String c EmptyString]
           | h :: t => String c h :: t
           end
  end.

(** [s.includes(p)]. *)
Fixpoint includes (p s : string) : bool :=
  String.prefix p s ||
  match s with
  | EmptyString => false
  | String _ r => includes p r
  end.

End Js.

(* ================================================================== *)
(** * Identifier Normalizer *)
(* ================================================================== *)

(** [normalizeUuid] of the position and contact migrators (the two copies
    are identical).  The [try]/[catch] of the source has nothing to catch:
    every operation in it is total on strings. *)
Definition normalizeUuid (id : option string) : option string :=
  match id with
  | None => None
  | Some s =>
      if negb (Js.nonempty s) then None
      else
        let normalizedId := Js.remove_dashes s in
        if Js.test_hex_i 32 normalizedId then Some normalizedId
        else if Js.test_hex_i 24 normalizedId
             then Some (Js.padEnd 32 "0" normalizedId)
             else None
  end.

(* ================================================================== *)
(** * The two stores and the effects of a migration run *)
(* ================================================================== *)

(** An exception as the migrators inspect it: the client's error [code]
    ([P2002] unique constraint, [P2000] value too long, [P2023] malformed
    identifier; [None] for an exception that is not a client error), the
    constrained fields [meta.target], and the message. *)
Module JsError.
Record t := mk { code : option string; target : list string; message : string }.
End JsError.

Definition has_code (c : string) (e : JsError.t) : bool :=
  match JsError.code e with Some c' => String.eqb c' c | None => false end.

(** [error.meta?.target?.includes(f)]. *)
Definition target_includes (f : string) (e : JsError.t) : bool :=
  existsb (String.eqb f) (JsError.target e).

Definition unique_violation (field : string) : JsError.t :=
  JsError.mk (Some "P2002") [field]
    ("Unique constraint failed on the fields: (" ++ field ++ ")").

(** ** Rows of the legacy schema (source store) *)

Module OldCompany.
Record t := mk {
  id : string;
  organizationId : option string;
  domain : string;
  careers_page : option string;
  linkedin_url : option string;
  company_size : option Z;
  industry : option string;
  raw_body : option string;
  createdAt : Z;
  updatedAt : option Z;
  isDeleted : bool;
  deletedAt : option Z }.
End OldCompany.

Module OldLead.
Record t := mk {
  id : string;
  email : string;
  emailSent : bool;
  emailOpened : bool;
  companyId : option string;
  createdBy : option string;
  isPending : bool;
  isProcessed : bool;
  hasOrganization : bool;
  hasPositions : bool;
  retryCount : Z;
  isStuck : bool;
  createdAt : Z;
  updatedAt : option Z;
  isDeleted : bool;
  deletedAt : option Z }.
End OldLead.

Module OldPosition.
Record t := mk {
  id : string;
  apollo_id : option string;
  position_title : string;
  job_description : option string;
  link : string;
  location : option string;
  salary_range : option string;
  companyId : option string;
  createdAt : Z;
  updatedAt : option Z;
  isDeleted : bool;
  deletedAt : option Z }.
End OldPosition.

Module OldContact.
Record t := mk {
  id : string;
  apollo_id : string;
  first_name : option string;
  last_name : option string;
  full_name : option string;
  linkedin_url : option string;
  title : option string;
  email_status : option string;
  email : option string;
  photo_url : option string;
  organization_id : option string;
  departments : list string;
  subdepartments : list string;
  seniority : option string;
  functions : list string;
  raw_body : string;
  companyId : option string;
  createdAt : Z;
  updatedAt : option Z;
  isDeleted : bool;
  deletedAt : option Z }.
End OldContact.

(** ** Rows of the redesigned schema (target store) *)

(** What the company transformer reads from a parsed [raw_body]. *)
Module RawBody.
Record t := mk {
  name : option string;
  website_url : option string;
  estimated_num_employees : option Z;
  industry : option string }.
End RawBody.

Module Company.
Record t := mk {
  id : string;
  name : string;
  website : string;
  domain : string;
  size : option string;
  revenue : option string;
  industry : option string;
  created_by : string;
  created_at : Z;
  last_updated_by : string;
  last_updated_at : Z;
  status : string;
  is_deleted : bool;
  deleted_at : option Z;
  deleted_by : option string;
  organization_id : option string;
  careers_page : option string;
  linkedin_url : option string;
  raw_body : option RawBody.t }.
End Company.

(** The projection [select: {id, name, status, is_deleted}]. *)
Module CompanyRef.
Record t := mk { id : string; name : string; status : string; is_deleted : bool }.
End CompanyRef.

Definition select_ref (c : Company.t) : CompanyRef.t :=
  CompanyRef.mk (Company.id c) (Company.name c) (Company.status c)
    (Company.is_deleted c).

(** A row of an enumeration table ([companyStatus], [leadStatus],
    [contactEmailStatus]). *)
Module StatusRow.
Record t := mk {
  field_type : option string;
  field_display_name : string;
  key : string;
  value : string;
  color : option string;
  color_hex : option string;
  created_by : string }.
End StatusRow.

Module Lead.
Record t := mk {
  id : string;
  email : string;
  company_id : option string;
  company_name : option string;
  company_website : option string;
  status : string;
  version : Z;
  email_sent : bool;
  email_opened : bool;
  is_pending : bool;
  is_processed : bool;
  has_organization : bool;
  has_positions : bool;
  retry_count : Z;
  is_stuck : bool;
  created_by : string;
  created_at : Z;
  last_updated_by : string;
  last_updated_at : Z;
  is_deleted : bool;
  deleted_at : option Z;
  deleted_by : option string }.
End Lead.

Module JobRole.
Record t := mk {
  id : string;
  title_hash : string;
  title_display : string;
  title_normalized : string;
  role_description : string;
  job_role_description_detailed : string }.
End JobRole.

Module Position.
Record t := mk {
  id : string;
  title : string;
  description : option string;
  is_active : bool;
  company_id : string;
  company_name : string;
  is_company_deleted : bool;
  company_status : string;
  location_address : option string;
  location_city : option string;
  location_state : option string;
  location_country : option string;
  location_zip : option string;
  jd_description : string;
  jd_link : string;
  job_role_id : string;
  apollo_id : option string;
  salary_range : option string;
  created_at : Z;
  last_updated_at : Z;
  is_deleted : bool;
  deleted_at : option Z }.
End Position.

Module Contact.
Record t := mk {
  id : string;
  name : string;
  job_title : string;
  company_id : string;
  email : option string;
  phone : option string;
  linkedin : option string;
  apollo_id : string;
  first_name : option string;
  last_name : option string;
  full_name : option string;
  linkedin_url : option string;
  title : option string;
  email_status : string;
  photo_url : option string;
  organization_id : option string;
  departments : list string;
  subdepartments : list string;
  seniority : option string;
  functions : list string;
  raw_body : string;
  created_at : Z;
  last_updated_at : Z;
  is_deleted : bool;
  deleted_at : option Z }.
End Contact.

(** ** Store state *)

Module Source.
Record t := mk {
  companies : list OldCompany.t;
  leads : list OldLead.t;
  positions : list OldPosition.t;
  contacts : list OldContact.t }.
End Source.

Module Target.
Record t := mk {
  company : list Company.t;
  companyStatus : list StatusRow.t;
  lead : list Lead.t;
  leadStatus : list StatusRow.t;
  jobRole : list JobRole.t;
  position : list Position.t;
  contactEmailStatus : list StatusRow.t;
  contact : list Contact.t }.

Definition set_company (v : list Company.t) (d : t) : t :=
  mk v (companyStatus d) (lead d) (leadStatus d) (jobRole d) (position d)
     (contactEmailStatus d) (contact d).
Definition set_companyStatus (v : list StatusRow.t) (d : t) : t :=
  mk (company d) v (lead d) (leadStatus d) (jobRole d) (position d)
     (contactEmailStatus d) (contact d).
Definition set_lead (v : list Lead.t) (d : t) : t :=
  mk (company d) (companyStatus d) v (leadStatus d) (jobRole d) (position d)
     (contactEmailStatus d) (contact d).
Definition set_leadStatus (v : list StatusRow.t) (d : t) : t :=
  mk (company d) (companyStatus d) (lead d) v (jobRole d) (position d)
     (contactEmailStatus d) (contact d).
Definition set_jobRole (v : list JobRole.t) (d : t) : t :=
  mk (company d) (companyStatus d) (lead d) (leadStatus d) v (position d)
     (contactEmailStatus d) (contact d).
Definition set_position (v : list Position.t) (d : t) : t :=
  mk (company d) (companyStatus d) (lead d) (leadStatus d) (jobRole d) v
     (contactEmailStatus d) (contact d).
Definition set_contactEmailStatus (v : list StatusRow.t) (d : t) : t :=
  mk (company d) (companyStatus d) (lead d) (leadStatus d) (jobRole d)
     (position d) v (contact d).
Definition set_contact (v : list Contact.t) (d : t) : t :=
  mk (company d) (companyStatus d) (lead d) (leadStatus d) (jobRole d)
     (position d) (contactEmailStatus d) v.
End Target.

(** The world a migrator runs in.  [faults] schedules the failures of the
    store client: every store call consumes one entry and throws it when it
    is [Some]; an exhausted schedule means the stores answer.  [randoms]
    are the successive values of [Math.random().toString(36)], [uuids] the
    identifiers the target store generates for rows created without one,
    [clock] the reading of [new Date()], [out] the console lines of the
    final report, and [globals] the migrator's module-level variables. *)
Record World (ST : Type) := mkWorld {
  source : Source.t;
  target : Target.t;
  faults : list (option JsError.t);
  randoms : list string;
  uuids : list string;
  clock : Z;
  out : list string;
  globals : ST }.

Section WorldUpdates.
Context {ST : Type}.

Definition set_target (v : Target.t) (w : World ST) : World ST :=
  mkWorld (source w) v (faults w) (randoms w) (uuids w) (clock w) (out w)
    (globals w).
Definition set_faults (v : list (option JsError.t)) (w : World ST) : World ST :=
  mkWorld (source w) (target w) v (randoms w) (uuids w) (clock w) (out w)
    (globals w).
Definition set_randoms (v : list string) (w : World ST) : World ST :=
  mkWorld (source w) (target w) (faults w) v (uuids w) (clock w) (out w)
    (globals w).
Definition set_uuids (v : list string) (w : World ST) : World ST :=
  mkWorld (source w) (target w) (faults w) (randoms w) v (clock w) (out w)
    (globals w).
Definition set_out (v : list string) (w : World ST) : World ST :=
  mkWorld (source w) (target w) (faults w) (randoms w) (uuids w) (clock w) v
    (globals w).
Definition set_globals (v : ST) (w : World ST) : World ST :=
  mkWorld (source w) (target w) (faults w) (randoms w) (uuids w) (clock w)
    (out w) v.

End WorldUpdates.

(** ** The state-and-exception monad *)

Inductive Res (A : Type) : Type :=
| Ok (a : A)
| Throw (e : JsError.t).
Arguments Ok {A} a.
Arguments Throw {A} e.

Definition M (ST A : Type) : Type := World ST -> Res A * World ST.

Section Monad.
Context {ST : Type}.

Definition ret {A} (a : A) : M ST A := fun w => (Ok a, w).

Definition bind {A B} (m : M ST A) (k : A -> M ST B) : M ST B :=
  fun w =>
    match m w with
    | (Ok a, w') => k a w'
    | (Throw e, w') => (Throw e, w')
    end.

Definition throw {A} (e : JsError.t) : M ST A := fun w => (Throw e, w).

(** [try { m } catch (e) { h e }]: the handler starts from the state the
    body had reached. *)
Definition try_catch {A} (m : M ST A) (h : JsError.t -> M ST A) : M ST A :=
  fun w =>
    match m w with
    | (Ok a, w') => (Ok a, w')
    | (Throw e, w') => h e w'
    end.

(** [try { m } finally { c }]. *)
Definition finally {A} (m : M ST A) (c : M ST unit) : M ST A :=
  fun w =>
    match m w with
    | (r, w') =>
        match c w' with
        | (Ok _, w'') => (r, w'')
        | (Throw e, w'') => (Throw e, w'')
        end
    end.

Definition gets {A} (f : World ST -> A) : M ST A := fun w => (Ok (f w), w).
Definition modify (f : World ST -> World ST) : M ST unit :=
  fun w => (Ok tt, f w).

End Monad.

Declare Scope js_scope.
Delimit Scope js_scope with js.
Notation "x <- m ;; k" := (bind m (fun x => k))
  (at level 61, m at next level, right associativity) : js_scope.
Notation "' pat <- m ;; k" :=
  (bind m (fun x => match x with pat => k end))
  (at level 61, pat pattern, m at next level, right associativity) : js_scope.
Notation "m ;; k" := (bind m (fun _ => k))
  (at level 61, right associativity) : js_scope.
Local Open Scope js_scope.

Section StoreCalls.
Context {ST : Type}.

(** One round trip to a store. *)
Definition io : M ST unit :=
  fun w =>
    match faults w with
    | [] => (Ok tt, w)
    | None :: fs => (Ok tt, set_faults fs w)
    | Some e :: fs => (Throw e, set_faults fs w)
    end.

Definition read_target {A} (f : Target.t -> A) : M ST A :=
  io ;; gets (fun w => f (target w)).

Definition read_source {A} (f : Source.t -> A) : M ST A :=
  io ;; gets (fun w => f (source w)).

Definition write_target (f : Target.t -> Target.t) : M ST unit :=
  modify (fun w => set_target (f (target w)) w).

(** [for (const x of xs) { body x }]. *)
Fixpoint for_of {A} (xs : list A) (body : A -> M ST unit) : M ST unit :=
  match xs with
  | [] => ret tt
  | x :: r => body x ;; for_of r body
  end.

Definition console_log (line : string) : M ST unit :=
  modify (fun w => set_out (out w ++ [line]) w).

(** [new Date()]. *)
Definition new_Date : M ST Z := gets (fun w => clock w).

(** [Math.random().toString(36)]; the rendering of the drawn number is
    taken from the world (["0"] stands for a draw of zero). *)
Definition random_base36 : M ST string :=
  fun w =>
    match randoms w with
    | [] => (Ok "0", w)
    | r :: rs => (Ok r, set_randoms rs w)
    end.

(** The identifier the store gives to a row created without one. *)
Definition generated_id : M ST string :=
  fun w =>
    match uuids w with
    | [] => (Ok "", w)
    | u :: us => (Ok u, set_uuids us w)
    end.

End StoreCalls.

(* ================================================================== *)
(** * Operations of the target and source stores *)
(* ================================================================== *)

(** The store client is an external collaborator.  Its reads are [find]
    over the rows in store order.  Its writes enforce the unique fields the
    migrators rely on (they query them with [findUnique] or handle their
    [P2002]): [company.id], [company.domain], [lead.id], [lead.email],
    [position.id], [contact.id], [contact.email], and the [key] and
    [value] of the status tables.  Identifiers are compared as text. *)
Section TargetStore.
Context {ST : Type}.

Definition company_findFirst (p : Company.t -> bool) : M ST (option Company.t) :=
  read_target (fun d => find p (Target.company d)).

Definition company_findUnique_id (id : string) : M ST (option Company.t) :=
  company_findFirst (fun c => String.eqb (Company.id c) id).

Definition company_findUnique_domain (domain : string)
  : M ST (option Company.t) :=
  company_findFirst (fun c => String.eqb (Company.domain c) domain).

Definition domain_taken (row : Company.t) (rows : list Company.t) : bool :=
  existsb (fun c => String.eqb (Company.domain c) (Company.domain row)
                    && negb (String.eqb (Company.id c) (Company.id row))) rows.

Definition replace_company (row : Company.t) (rows : list Company.t)
  : list Company.t :=
  map (fun c => if String.eqb (Company.id c) (Company.id row) then row else c)
      rows.

(** [company.upsert({where: {id}, update: row, create: row})]. *)
Definition company_upsert (row : Company.t) : M ST unit :=
  io ;;
  rows <- gets (fun w => Target.company (target w)) ;;
  if domain_taken row rows then throw (unique_violation "domain")
  else if existsb (fun c => String.eqb (Company.id c) (Company.id row)) rows
       then write_target (Target.set_company (replace_company row rows))
       else write_target (Target.set_company (rows ++ [row])).

Definition find_status_key (key : string) (rows : list StatusRow.t)
  : option StatusRow.t :=
  find (fun r => String.eqb (StatusRow.key r) key) rows.

Definition find_status_value (value : string) (rows : list StatusRow.t)
  : option StatusRow.t :=
  find (fun r => String.eqb (StatusRow.value r) value) rows.

Definition status_conflict (row : StatusRow.t) (rows : list StatusRow.t)
  : option JsError.t :=
  match find_status_key (StatusRow.key row) rows with
  | Some _ => Some (unique_violation "key")
  | None =>
      match find_status_value (StatusRow.value row) rows with
      | Some _ => Some (unique_violation "value")
      | None => None
      end
  end.

Definition companyStatus_findUnique_key (key : string)
  : M ST (option StatusRow.t) :=
  read_target (fun d => find_status_key key (Target.companyStatus d)).

Definition companyStatus_findUnique_value (value : string)
  : M ST (option StatusRow.t) :=
  read_target (fun d => find_status_value value (Target.companyStatus d)).

Definition companyStatus_create (row : StatusRow.t) : M ST unit :=
  io ;;
  rows <- gets (fun w => Target.companyStatus (target w)) ;;
  match status_conflict row rows with
  | Some e => throw e
  | None => write_target (Target.set_companyStatus (rows ++ [row]))
  end.

Definition leadStatus_findUnique_key (key : string)
  : M ST (option StatusRow.t) :=
  read_target (fun d => find_status_key key (Target.leadStatus d)).

Definition leadStatus_create (row : StatusRow.t) : M ST unit :=
  io ;;
  rows <- gets (fun w => Target.leadStatus (target w)) ;;
  match status_conflict row rows with
  | Some e => throw e
  | None => write_target (Target.set_leadStatus (rows ++ [row]))
  end.

Definition lead_findUnique_email (email : string) : M ST (option Lead.t) :=
  read_target (fun d =>
    find (fun l => String.eqb (Lead.email l) email) (Target.lead d)).

Definition lead_create (row : Lead.t) : M ST unit :=
  io ;;
  rows <- gets (fun w => Target.lead (target w)) ;;
  if existsb (fun l => String.eqb (Lead.id l) (Lead.id row)) rows
  then throw (unique_violation "id")
  else if existsb (fun l => String.eqb (Lead.email l) (Lead.email row)) rows
       then throw (unique_violation "email")
       else write_target (Target.set_lead (rows ++ [row])).

Definition jobRole_findFirst (title_normalized : string)
  : M ST (option JobRole.t) :=
  read_target (fun d =>
    find (fun j => String.eqb (JobRole.title_normalized j) title_normalized)
         (Target.jobRole d)).

(** [jobRole.create]: the store generates the identifier and returns the
    created row. *)
Definition jobRole_create
    (title_hash title_display title_normalized role_description detailed
       : string) : M ST JobRole.t :=
  io ;;
  id <- generated_id ;;
  let row := JobRole.mk id title_hash title_display title_normalized
               role_description detailed in
  write_target (fun d => Target.set_jobRole (Target.jobRole d ++ [row]) d) ;;
  ret row.

Definition position_findUnique (id : string) : M ST (option Position.t) :=
  read_target (fun d =>
    find (fun p => String.eqb (Position.id p) id) (Target.position d)).

Definition position_create (row : Position.t) : M ST unit :=
  io ;;
  rows <- gets (fun w => Target.position (target w)) ;;
  if existsb (fun p => String.eqb (Position.id p) (Position.id row)) rows
  then throw (unique_violation "id")
  else write_target (Target.set_position (rows ++ [row])).

Definition emailStatus_findFirst (value : string)
  : M ST (option StatusRow.t) :=
  read_target (fun d => find_status_value value (Target.contactEmailStatus d)).

(** [contactEmailStatus.create], returning the created row. *)
Definition emailStatus_create (row : StatusRow.t) : M ST StatusRow.t :=
  io ;;
  write_target (fun d =>
    Target.set_contactEmailStatus (Target.contactEmailStatus d ++ [row]) d) ;;
  ret row.

Definition contact_findUnique (id : string) : M ST (option Contact.t) :=
  read_target (fun d =>
    find (fun c => String.eqb (Contact.id c) id) (Target.contact d)).

Definition same_email (email : string) (c : Contact.t) : bool :=
  match Contact.email c with
  | Some e => String.eqb e email
  | None => false
  end.

(** [contact.findFirst({where: {email, id: {not: id}}})]. *)
Definition contact_findFirst_email (email id : string)
  : M ST (option Contact.t) :=
  read_target (fun d =>
    find (fun c => same_email email c && negb (String.eqb (Contact.id c) id))
         (Target.contact d)).

Definition email_taken (row : Contact.t) (rows : list Contact.t) : bool :=
  match Contact.email row with
  | Some e => existsb (same_email e) rows
  | None => false
  end.

Definition contact_create (row : Contact.t) : M ST unit :=
  io ;;
  rows <- gets (fun w => Target.contact (target w)) ;;
  if existsb (fun c => String.eqb (Contact.id c) (Contact.id row)) rows
  then throw (unique_violation "id")
  else if email_taken row rows then throw (unique_violation "email")
       else write_target (Target.set_contact (rows ++ [row])).

(** [oldPrisma.companies.findUnique({where: {id}, select: {domain}})]. *)
Definition old_company_domain (id : string) : M ST (option string) :=
  read_source (fun s =>
    option_map OldCompany.domain
      (find (fun c => String.eqb (OldCompany.id c) id) (Source.companies s))).

(** [$disconnect()] of either client. *)
Definition disconnect : M ST unit := io.

End TargetStore.

(** [xs.slice(i, j)]. *)
Definition slice {A} (i j : nat) (xs : list A) : list A :=
  firstn (j - i) (skipn i xs).

(** The local counters of a batch loop. *)
Module Counts.
Record t := mk { successCount : N; existingCount : N; errorCount : N }.
Definition zero : t := mk 0 0 0.
Definition success (c : t) : t :=
  mk (successCount c + 1) (existingCount c) (errorCount c).
Definition existing (c : t) : t :=
  mk (successCount c) (existingCount c + 1) (errorCount c).
Definition error (c : t) : t :=
  mk (successCount c) (existingCount c) (errorCount c + 1).
End Counts.

Section BatchLoop.
Context {ST A : Type}.
Variable body : A -> Counts.t -> M ST Counts.t.

(** [for (const x of batch) { ... }] with the counters threaded through. *)
Fixpoint for_counting (batch : list A) (c : Counts.t) : M ST Counts.t :=
  match batch with
  | [] => ret c
  | x :: r => c' <- body x c ;; for_counting r c'
  end.

(** [for (let i = 0; i < xs.length; i += batchSize)] over slices of
    [batchSize] rows; [fuel] bounds the number of slices. *)
Fixpoint batches (fuel batchSize i : nat) (xs : list A) (c : Counts.t)
  : M ST Counts.t :=
  match fuel with
  | O => ret c
  | S fuel' =>
      if i <? length xs
      then c' <- for_counting (slice i (i + batchSize) xs) c ;;
           batches fuel' batchSize (i + batchSize) xs c'
      else ret c
  end.

End BatchLoop.

Definition show_N (n : N) : string := NilZero.string_of_uint (N.to_uint n).
Definition show_nat (n : nat) : string := NilZero.string_of_uint (Nat.to_uint n).
Definition show_Z (z : Z) : string := NilZero.string_of_int (Z.to_int z).

Definition show_null (o : option string) : string :=
  match o with Some s => s | None => "null" end.

(* ================================================================== *)
(** * Company migrator *)
(* ================================================================== *)

Definition DEFAULT_COMPANY_STATUS : string := "Potential Client".

(** [Object.entries(COMPANY_STATUSES)], in insertion order. *)
Definition COMPANY_STATUSES : list (string * string) :=
  [ ("dh/contract_agreement_signed", "DH/Contract Agreement Signed");
    ("no_recruitment_services_required", "No Recruitment Services Required");
    ("potential_client", "Potential Client");
    ("client_inactive/not_responding", "Client Inactive/Not Responding");
    ("do_not_contact_email_received", "Do Not Contact Email Received");
    ("position_not_being_filled_by_recruiters",
     "Position Not Being Filled By Recruiters");
    ("client_backed_out", "Client Backed Out");
    ("dh/contract_agreement_sent", "DH/Contract Agreement Sent");
    ("clients_will_work_in_the_future", "Clients Will Work in the Future");
    ("not_happy_with_terms", "Not happy With Terms");
    ("pro-rated_refund_agreement", "Pro-Rated Refund Agreement");
    ("job_closed_internally", "Job Closed Internally");
    ("ready_to_dh_agreement", "Ready To DH Agreement");
    ("client_wants_refund_policy", "Client Wants Refund Policy");
    ("contract_terminated", "Contract Terminated") ].

Definition company_status_row (key value : string) : StatusRow.t :=
  StatusRow.mk (Some "SINGLE_SELECT") "company_status" key value None None
    "migration_script".

Section CompanyMigrator.
(** [JSON.parse] restricted to what the transformer reads; [None] is a
    thrown [SyntaxError]. *)
Variable JSON_parse : string -> option RawBody.t.
Context {ST : Type}.

Definition parseRawBody (rawBodyStr : option string) : option RawBody.t :=
  match rawBodyStr with
  | None => None
  | Some s => if Js.nonempty s then JSON_parse s else None
  end.

Definition determineCompanyStatus (oldCompany : OldCompany.t)
    (rawBody : option RawBody.t) : string :=
  DEFAULT_COMPANY_STATUS.

(** [rawBody?.f] for a string field. *)
Definition raw_field (f : RawBody.t -> option string)
    (rawBody : option RawBody.t) : option string :=
  match rawBody with Some b => f b | None => None end.

Definition transformCompany (oldCompany : OldCompany.t) : Company.t :=
  let rawBody := parseRawBody (OldCompany.raw_body oldCompany) in
  let status := determineCompanyStatus oldCompany rawBody in
  let name :=
    Js.or_else (raw_field RawBody.name rawBody)
      ("Unknown Company (" ++ OldCompany.domain oldCompany ++ ")") in
  let website :=
    Js.or_else (raw_field RawBody.website_url rawBody)
      ("http://" ++ OldCompany.domain oldCompany) in
  let size :=
    match OldCompany.company_size oldCompany with
    | Some n => Some (show_Z n)
    | None =>
        match rawBody with
        | Some b =>
            match RawBody.estimated_num_employees b with
            | Some n => if Z.eqb n 0 then None else Some (show_Z n)
            | None => None
            end
        | None => None
        end
    end in
  Company.mk
    (OldCompany.id oldCompany)
    name
    website
    (OldCompany.domain oldCompany)
    size
    None
    (match Js.or_null (OldCompany.industry oldCompany) with
     | Some i => Some i
     | None => Js.or_null (raw_field RawBody.industry rawBody)
     end)
    "migration_script"
    (OldCompany.createdAt oldCompany)
    "migration_script"
    (match OldCompany.updatedAt oldCompany with
     | Some u => u
     | None => OldCompany.createdAt oldCompany
     end)
    status
    (OldCompany.isDeleted oldCompany)
    (OldCompany.deletedAt oldCompany)
    (if OldCompany.isDeleted oldCompany then Some "migration_script" else None)
    (OldCompany.organizationId oldCompany)
    (OldCompany.careers_page oldCompany)
    (OldCompany.linkedin_url oldCompany)
    rawBody.

(** Seeds the company statuses: look up by key, create when absent; an
    exception is logged and thrown again. *)
Definition ensureCompanyStatuses : M ST unit :=
  try_catch
    (for_of COMPANY_STATUSES (fun '(key, value) =>
       existingStatus <- companyStatus_findUnique_key key ;;
       match existingStatus with
       | Some _ => ret tt
       | None => companyStatus_create (company_status_row key value)
       end))
    (fun error =>
       console_log "Error ensuring company statuses:" ;;
       throw error).

(** One turn of the inner loop of [migrateCompanies]: the [try] block with
    its [continue], and the [catch] that classifies the exception. *)
Definition migrateCompany (oldCompany : OldCompany.t) (c : Counts.t)
  : M ST Counts.t :=
  try_catch
    (let newCompany := transformCompany oldCompany in
     existingCompany <- company_findUnique_domain (Company.domain newCompany) ;;
     let skip :=
       match existingCompany with
       | Some e => negb (String.eqb (Company.id e) (Company.id newCompany))
       | None => false
       end in
     if skip then ret (Counts.existing c)
     else company_upsert newCompany ;; ret (Counts.success c))
    (fun error =>
       if has_code "P2002" error && target_includes "domain" error
       then ret (Counts.existing c)
       else ret (Counts.error c)).

Definition company_report (found : nat) (c : Counts.t) : M ST unit :=
  console_log "Company migration completed." ;;
  console_log ("Total companies found in old schema: " ++ show_nat found) ;;
  console_log ("Successfully migrated: " ++ show_N (Counts.successCount c)) ;;
  console_log ("Already existing (skipped): " ++ show_N (Counts.existingCount c)) ;;
  console_log ("Failed migrations: " ++ show_N (Counts.errorCount c)).

(** [migrateCompanies]; of the console output the report and the failure
    banners are recorded.  The counters of the completed pass are returned
    for inspection ([None] when the pass was cut short). *)
Definition migrateCompanies : M ST (option Counts.t) :=
  finally
    (try_catch
       (ensureCompanyStatuses ;;
        oldCompanies <- read_source Source.companies ;;
        c <- batches migrateCompany (length oldCompanies) 50 0 oldCompanies
               Counts.zero ;;
        company_report (length oldCompanies) c ;;
        ret (Some c))
       (fun error => console_log "Migration failed:" ;; ret None))
    (disconnect ;; disconnect).

(** The script's last statement:
    [migrateCompanies().then(exit 0).catch(exit 1)]; the result is the
    process exit code. *)
Definition company_main (w : World ST) : Z * World ST :=
  match migrateCompanies w with
  | (Ok _, w') =>
      (0%Z, set_out (out w' ++ ["Migration script completed successfully"]) w')
  | (Throw _, w') =>
      (1%Z, set_out (out w' ++ ["Migration script failed:"]) w')
  end.

End CompanyMigrator.

(* ================================================================== *)
(** * Lead migrator *)
(* ================================================================== *)

Definition LEAD_STATUSES : list (string * string) :=
  [ ("new_lead", "New Lead");
    ("converted_to_company", "Converted to Company");
    ("in_progress", "In Progress");
    ("failed", "Failed") ].

Definition DEFAULT_LEAD_STATUS : string := "new_lead".

Definition determineLeadStatus (oldLead : OldLead.t) : string :=
  if OldLead.isStuck oldLead then "failed"
  else if OldLead.isPending oldLead then "in_progress"
  else if Js.truthy (OldLead.companyId oldLead) then "new_lead"
  else DEFAULT_LEAD_STATUS.

Definition transformLead (oldLead : OldLead.t) (status : string)
    (companyInNewSchema : option Company.t) : Lead.t :=
  Lead.mk
    (OldLead.id oldLead)
    (OldLead.email oldLead)
    (Js.or_null (option_map Company.id companyInNewSchema))
    (Js.or_null (option_map Company.name companyInNewSchema))
    (Js.or_null (option_map Company.website companyInNewSchema))
    status
    1
    (OldLead.emailSent oldLead)
    (OldLead.emailOpened oldLead)
    (OldLead.isPending oldLead)
    (OldLead.isProcessed oldLead)
    (OldLead.hasOrganization oldLead)
    (OldLead.hasPositions oldLead)
    (OldLead.retryCount oldLead)
    (OldLead.isStuck oldLead)
    (Js.or_else (OldLead.createdBy oldLead) "migration_script")
    (OldLead.createdAt oldLead)
    "migration_script"
    (match OldLead.updatedAt oldLead with
     | Some u => u
     | None => OldLead.createdAt oldLead
     end)
    (OldLead.isDeleted oldLead)
    (OldLead.deletedAt oldLead)
    (if OldLead.isDeleted oldLead then Some "migration_script" else None).

Definition lead_status_row (key value : string) : StatusRow.t :=
  StatusRow.mk (Some "SINGLE_SELECT") "leads_status" key value None None
    "migration_script".

Section LeadMigrator.
Context {ST : Type}.

Definition ensureLeadStatuses : M ST unit :=
  try_catch
    (for_of LEAD_STATUSES (fun '(key, value) =>
       existingStatus <- leadStatus_findUnique_key key ;;
       match existingStatus with
       | Some _ => ret tt
       | None => leadStatus_create (lead_status_row key value)
       end))
    (fun error =>
       console_log "Error ensuring lead statuses:" ;;
       throw error).

(** One turn of the inner loop of [migrateOldLeads]. *)
Definition migrateOldLead (oldLead : OldLead.t) (c : Counts.t)
  : M ST Counts.t :=
  try_catch
    (existingLead <- lead_findUnique_email (OldLead.email oldLead) ;;
     match existingLead with
     | Some _ => ret (Counts.existing c)
     | None =>
         let status := determineLeadStatus oldLead in
         '(status, companyInNewSchema) <-
           (match OldLead.companyId oldLead with
            | Some companyId =>
                if Js.nonempty companyId then
                  found <- company_findUnique_id companyId ;;
                  match found with
                  | Some co => ret ("converted_to_company", Some co)
                  | None => ret (status, None)
                  end
                else ret (status, None)
            | None => ret (status, None)
            end) ;;
         let newLead := transformLead oldLead status companyInNewSchema in
         lead_create newLead ;;
         ret (Counts.success c)
     end)
    (fun error =>
       if has_code "P2002" error && target_includes "email" error
       then ret (Counts.existing c)
       else ret (Counts.error c)).

Definition migrateOldLeads : M ST Counts.t :=
  oldLeads <- read_source Source.leads ;;
  batches migrateOldLead (length oldLeads) 50 0 oldLeads Counts.zero.

End LeadMigrator.

(** The single-sample test script of the lead migrator
    ([test-lead-migration.ts]). *)
Module TestLead.

Definition COMPANY_STATUS_KEY : string := "potential_client".
Definition COMPANY_STATUS_VALUE : string := "Potential Client".
Definition DEFAULT_LEAD_STATUS : string := "New Lead".

Definition determineLeadStatus (oldLead : OldLead.t) : string :=
  if OldLead.isStuck oldLead then "failed"
  else if OldLead.isPending oldLead then "in_progress"
  else if Js.truthy (OldLead.companyId oldLead) then "converted_to_company"
  else DEFAULT_LEAD_STATUS.

Section Reconciler.
Context {ST : Type}.

(** Find-or-create of the one company status the test needs: by key, then
    by value, then create. *)
Definition ensureCompanyStatus : M ST unit :=
  try_catch
    (byKey <- companyStatus_findUnique_key COMPANY_STATUS_KEY ;;
     existingStatus <-
       (match byKey with
        | Some r => ret (Some r)
        | None => companyStatus_findUnique_value COMPANY_STATUS_VALUE
        end) ;;
     match existingStatus with
     | None =>
         companyStatus_create
           (company_status_row COMPANY_STATUS_KEY COMPANY_STATUS_VALUE)
     | Some _ => ret tt
     end)
    (fun error =>
       console_log "Error ensuring company status:" ;;
       throw error).

End Reconciler.
End TestLead.

(* ================================================================== *)
(** * The statistics ledger of the position and contact migrators *)
(* ================================================================== *)

Module CompanyMatches.
Record t := mk { byId : N; byDomain : N }.
End CompanyMatches.

(** [MigrationStats]; the record of failure categories [F] differs between
    the two migrators. *)
Module MigrationStats.
Record t (F : Type) := mk {
  total : N;
  successful : N;
  duplicates : N;
  failed : N;
  companyMatches : CompanyMatches.t;
  failures : F }.
End MigrationStats.

(** The module-level variables of a migrator: [stats] and the three
    result arrays. *)
Module Ledger.
Record t (F : Type) := mk {
  stats : MigrationStats.t F;
  successResults : list string;
  failureResults : list string;
  duplicateResults : list string }.
End Ledger.

Section LedgerUpdates.
Context {F : Type}.
Abbreviation ST := (Ledger.t F).

Definition update_stats (f : MigrationStats.t F -> MigrationStats.t F)
  : M ST unit :=
  modify (fun w =>
    let g := globals w in
    set_globals
      (Ledger.mk (f (Ledger.stats g)) (Ledger.successResults g)
         (Ledger.failureResults g) (Ledger.duplicateResults g)) w).

(** [stats.total++]. *)
Definition inc_total : M ST unit :=
  update_stats (fun s =>
    MigrationStats.mk (MigrationStats.total s + 1) (MigrationStats.successful s)
      (MigrationStats.duplicates s) (MigrationStats.failed s)
      (MigrationStats.companyMatches s) (MigrationStats.failures s)).

(** [stats.successful++]. *)
Definition inc_successful : M ST unit :=
  update_stats (fun s =>
    MigrationStats.mk (MigrationStats.total s) (MigrationStats.successful s + 1)
      (MigrationStats.duplicates s) (MigrationStats.failed s)
      (MigrationStats.companyMatches s) (MigrationStats.failures s)).

(** [stats.duplicates++]. *)
Definition inc_duplicates : M ST unit :=
  update_stats (fun s =>
    MigrationStats.mk (MigrationStats.total s) (MigrationStats.successful s)
      (MigrationStats.duplicates s + 1) (MigrationStats.failed s)
      (MigrationStats.companyMatches s) (MigrationStats.failures s)).

(** [stats.failed++]. *)
Definition inc_failed : M ST unit :=
  update_stats (fun s =>
    MigrationStats.mk (MigrationStats.total s) (MigrationStats.successful s)
      (MigrationStats.duplicates s) (MigrationStats.failed s + 1)
      (MigrationStats.companyMatches s) (MigrationStats.failures s)).

(** [stats.failures.<category>++]. *)
Definition inc_failure (f : F -> F) : M ST unit :=
  update_stats (fun s =>
    MigrationStats.mk (MigrationStats.total s) (MigrationStats.successful s)
      (MigrationStats.duplicates s) (MigrationStats.failed s)
      (MigrationStats.companyMatches s) (f (MigrationStats.failures s))).

Definition update_matches (f : CompanyMatches.t -> CompanyMatches.t)
  : M ST unit :=
  update_stats (fun s =>
    MigrationStats.mk (MigrationStats.total s) (MigrationStats.successful s)
      (MigrationStats.duplicates s) (MigrationStats.failed s)
      (f (MigrationStats.companyMatches s)) (MigrationStats.failures s)).

(** [stats.companyMatches.byId++]. *)
Definition inc_byId : M ST unit :=
  update_matches (fun m =>
    CompanyMatches.mk (CompanyMatches.byId m + 1) (CompanyMatches.byDomain m)).

(** [stats.companyMatches.byDomain++]. *)
Definition inc_byDomain : M ST unit :=
  update_matches (fun m =>
    CompanyMatches.mk (CompanyMatches.byId m) (CompanyMatches.byDomain m + 1)).

(** The assignment [stats = {...zeros}] and the emptying of the arrays at
    the start of a pass. *)
Definition reset_ledger (zero : F) : M ST unit :=
  modify (set_globals
    (Ledger.mk (MigrationStats.mk 0 0 0 0 (CompanyMatches.mk 0 0) zero)
       [] [] [])).

(** The categorisation of a result line after each record. *)
Definition store_result (result : string) : M ST unit :=
  modify (fun w =>
    let g := globals w in
    set_globals
      (if Js.startsWith "Success" result
       then Ledger.mk (Ledger.stats g) (Ledger.successResults g ++ [result])
              (Ledger.failureResults g) (Ledger.duplicateResults g)
       else if Js.startsWith "Duplicate" result
       then Ledger.mk (Ledger.stats g) (Ledger.successResults g)
              (Ledger.failureResults g) (Ledger.duplicateResults g ++ [result])
       else Ledger.mk (Ledger.stats g) (Ledger.successResults g)
              (Ledger.failureResults g ++ [result]) (Ledger.duplicateResults g))
      w).

End LedgerUpdates.

(** The page loop of [migratePositions] and [migrateContacts] (the two
    copies differ in the table read and in the record function): records
    are fetched a page at a time with [findMany({skip, take})], every
    record of the page is migrated and its result line filed. *)
Section PageLoop.
Context {F R : Type}.
Variable rows : Source.t -> list R.
Variable migrate : R -> M (Ledger.t F) string.

(** The inner [for (const record of page)]. *)
Definition process_page (page : list R) : M (Ledger.t F) unit :=
  for_of page (fun record =>
    result <- migrate record ;;
    store_result result).

(** [for (let skip = 0; skip < total; skip += batchSize)]; [fuel] bounds
    the number of pages. *)
Fixpoint page_loop (fuel batchSize skip total : nat) : M (Ledger.t F) unit :=
  match fuel with
  | O => ret tt
  | S fuel' =>
      if skip <? total then
        page <-
          read_source (fun s => firstn batchSize (skipn skip (rows s))) ;;
        process_page page ;;
        page_loop fuel' batchSize (skip + batchSize) total
      else ret tt
  end.

End PageLoop.

(* ================================================================== *)
(** * Reference Resolver (shared by the position and contact migrators) *)
(* ================================================================== *)

Definition normalizeDomain (domain : string) : string :=
  if negb (Js.nonempty domain) then ""
  else
    let normalized := Js.trim (Js.toLowerCase domain) in
    if Js.startsWith "www." normalized then Js.drop 4 normalized
    else normalized.

(** [{equals: x, mode: "insensitive"}]. *)
Definition equals_insensitive (x field : string) : bool :=
  String.eqb (Js.toLowerCase field) (Js.toLowerCase x).

(** [{contains: x, mode: "insensitive"}]. *)
Definition contains_insensitive (x field : string) : bool :=
  Js.includes (Js.toLowerCase x) (Js.toLowerCase field).

(** The [OR] filter of the second domain query. *)
Definition domain_or_filter (normalizedDomain : string) (c : Company.t) : bool :=
  let domainVariants :=
    if Js.startsWith "www." normalizedDomain
    then (normalizedDomain, Js.drop 4 normalizedDomain)
    else (normalizedDomain, "www." ++ normalizedDomain) in
  equals_insensitive (fst domainVariants) (Company.domain c)
  || equals_insensitive (snd domainVariants) (Company.domain c)
  || contains_insensitive normalizedDomain (Company.domain c).

Section ReferenceResolver.
Context {F : Type}.
Abbreviation ST := (Ledger.t F).

(** [findCompany]: by normalised identifier first, then by the domain of
    the source record; any exception yields null. *)
Definition findCompany (oldCompanyId : option string)
  : M ST (option CompanyRef.t) :=
  match oldCompanyId with
  | None => ret None
  | Some rawId =>
      if negb (Js.nonempty rawId) then ret None
      else
        try_catch
          (byId <-
             (match normalizeUuid oldCompanyId with
              | None => ret None
              | Some normalizedId =>
                  companyById <- company_findUnique_id normalizedId ;;
                  match companyById with
                  | Some c => inc_byId ;; ret (Some c)
                  | None => ret None
                  end
              end) ;;
           match byId with
           | Some c => ret (Some (select_ref c))
           | None =>
               oldCompany <- old_company_domain rawId ;;
               match oldCompany with
               | None => ret None
               | Some domain =>
                   if negb (Js.nonempty domain) then ret None
                   else
                     let normalizedDomain := normalizeDomain domain in
                     if negb (Js.nonempty normalizedDomain) then ret None
                     else
                       exact <- company_findUnique_domain normalizedDomain ;;
                       companyByDomain <-
                         (match exact with
                          | Some c => ret (Some c)
                          | None =>
                              company_findFirst
                                (domain_or_filter normalizedDomain)
                          end) ;;
                       match companyByDomain with
                       | Some c => inc_byDomain ;; ret (Some (select_ref c))
                       | None => ret None
                       end
               end
           end)
          (fun error => ret None)
  end.

End ReferenceResolver.

(* ================================================================== *)
(** * Position migrator *)
(* ================================================================== *)

Module PositionFailures.
Record t := mk {
  uuidFormat : N;
  missingCompany : N;
  missingJobRole : N;
  dataValidation : N;
  dbError : N;
  other : N }.
Definition zero : t := mk 0 0 0 0 0 0.
Definition inc_uuidFormat (f : t) : t :=
  mk (uuidFormat f + 1) (missingCompany f) (missingJobRole f)
     (dataValidation f) (dbError f) (other f).
Definition inc_missingCompany (f : t) : t :=
  mk (uuidFormat f) (missingCompany f + 1) (missingJobRole f)
     (dataValidation f) (dbError f) (other f).
Definition inc_missingJobRole (f : t) : t :=
  mk (uuidFormat f) (missingCompany f) (missingJobRole f + 1)
     (dataValidation f) (dbError f) (other f).
Definition inc_dataValidation (f : t) : t :=
  mk (uuidFormat f) (missingCompany f) (missingJobRole f)
     (dataValidation f + 1) (dbError f) (other f).
Definition inc_other (f : t) : t :=
  mk (uuidFormat f) (missingCompany f) (missingJobRole f)
     (dataValidation f) (dbError f) (other f + 1).
End PositionFailures.

(** [\w]. *)
Definition is_word (c : ascii) : bool :=
  let n := nat_of_ascii c in
  ((48 <=? n) && (n <=? 57)) || ((65 <=? n) && (n <=? 90))
  || ((97 <=? n) && (n <=? 122)) || (n =? 95).

(** [s.replace(/[^\w\s]/g, "")]. *)
Fixpoint strip_special (s : string) : string :=
  match s with
  | EmptyString => EmptyString
  | String c r =>
      if is_word c || Js.is_space c then String c (strip_special r)
      else strip_special r
  end.

(** [s.replace(/\s+/g, "_")]; [in_run] tells that the previous character
    was white space already replaced. *)
Fixpoint underscore_spaces (in_run : bool) (s : string) : string :=
  match s with
  | EmptyString => EmptyString
  | String c r =>
      if Js.is_space c
      then if in_run then underscore_spaces true r
           else String "_" (underscore_spaces true r)
      else String c (underscore_spaces false r)
  end.

Definition normalizeTitle (title : string) : string :=
  Js.trim (underscore_spaces false (strip_special (Js.toLowerCase title))).

Module LocationInfo.
Record t := mk {
  address : option string;
  city : option string;
  state : option string;
  country : option string;
  zip : option string }.
End LocationInfo.

Definition parseLocation (location : option string) : LocationInfo.t :=
  if negb (Js.truthy location) then LocationInfo.mk None None None None None
  else
    let parts := map Js.trim (Js.split "," (Js.or_else location "")) in
    LocationInfo.mk
      (Js.or_null (nth_error parts 0))
      (Js.or_null (nth_error parts 0))
      (if 1 <? length parts then nth_error parts 1 else None)
      (if 2 <? length parts then nth_error parts 2 else Some "US")
      None.

Section PositionMigrator.
(** [createTitleHash]: the SHA-256 digest of the normalised title. *)
Variable createTitleHash : string -> string.
Abbreviation ST := (Ledger.t PositionFailures.t).

(** [findOrCreateJobRole]; the caller reads the [id] of the row. *)
Definition findOrCreateJobRole (title : string) (description : option string)
  : M ST (option JobRole.t) :=
  try_catch
    (let truncatedTitle := Js.take 200 title in
     let normalizedTitle := Js.take 200 (normalizeTitle truncatedTitle) in
     let titleHash := createTitleHash normalizedTitle in
     existingJobRole <-
       try_catch (jobRole_findFirst normalizedTitle) (fun error => ret None) ;;
     match existingJobRole with
     | Some j => ret (Some j)
     | None =>
         try_catch
           (let jobRoleDescription :=
              Js.or_else description (truncatedTitle ++ " role") in
            let detailedDescription :=
              Js.or_else description
                ("This is a " ++ truncatedTitle ++ " position.") in
            newJobRole <-
              jobRole_create titleHash truncatedTitle normalizedTitle
                (Js.take 500 jobRoleDescription)
                (Js.take 4000 detailedDescription) ;;
            ret (Some newJobRole))
           (fun error =>
              if has_code "P2000" error then
                try_catch
                  (let fallbackTitle := Js.take 100 truncatedTitle in
                   let fallbackNormalizedTitle :=
                     Js.take 100 (normalizeTitle fallbackTitle) in
                   let fallbackHash := createTitleHash fallbackNormalizedTitle in
                   let fallbackDesc := "Generic job role" in
                   fallbackJobRole <-
                     jobRole_create fallbackHash fallbackTitle
                       fallbackNormalizedTitle fallbackDesc fallbackDesc ;;
                   ret (Some fallbackJobRole))
                  (fun fallbackError => ret None)
              else ret None)
     end)
    (fun error => ret None).

Definition newPositionData (oldPosition : OldPosition.t) (normalizedId : string)
    (company : CompanyRef.t) (jobRole : JobRole.t)
    (locationInfo : LocationInfo.t) (now : Z) : Position.t :=
  Position.mk
    normalizedId
    (Js.or_else (Some (OldPosition.position_title oldPosition))
       "Untitled Position")
    (Js.or_null (OldPosition.job_description oldPosition))
    true
    (CompanyRef.id company)
    (CompanyRef.name company)
    (CompanyRef.is_deleted company)
    (CompanyRef.status company)
    (LocationInfo.address locationInfo)
    (LocationInfo.city locationInfo)
    (LocationInfo.state locationInfo)
    (LocationInfo.country locationInfo)
    (LocationInfo.zip locationInfo)
    (Js.or_else (OldPosition.job_description oldPosition)
       "No description available")
    (Js.or_else (Some (OldPosition.link oldPosition)) "https://example.com")
    (JobRole.id jobRole)
    (OldPosition.apollo_id oldPosition)
    (OldPosition.salary_range oldPosition)
    (OldPosition.createdAt oldPosition)
    (match OldPosition.updatedAt oldPosition with
     | Some u => u
     | None => now
     end)
    (OldPosition.isDeleted oldPosition)
    (OldPosition.deletedAt oldPosition).

(** [migratePosition]: one record, one result line. *)
Definition migratePosition (oldPosition : OldPosition.t) : M ST string :=
  inc_total ;;
  try_catch
    (match normalizeUuid (Some (OldPosition.id oldPosition)) with
     | None =>
         inc_failed ;;
         inc_failure PositionFailures.inc_uuidFormat ;;
         ret ("Failed: Invalid UUID format for position "
              ++ OldPosition.id oldPosition)
     | Some normalizedId =>
         early <-
           try_catch
             (existingPosition <- position_findUnique normalizedId ;;
              match existingPosition with
              | Some _ =>
                  inc_duplicates ;;
                  ret (Some ("Duplicate: Position " ++ normalizedId
                             ++ " already exists, skipping."))
              | None => ret None
              end)
             (fun error =>
                if has_code "P2023" error then
                  inc_failed ;;
                  inc_failure PositionFailures.inc_uuidFormat ;;
                  ret (Some ("Failed: UUID format error for position "
                             ++ OldPosition.id oldPosition ++ ": "
                             ++ JsError.message error))
                else throw error) ;;
         match early with
         | Some line => ret line
         | None =>
             company <- findCompany (OldPosition.companyId oldPosition) ;;
             match company with
             | None =>
                 inc_failed ;;
                 inc_failure PositionFailures.inc_missingCompany ;;
                 ret ("Failed: Company not found for position " ++ normalizedId
                      ++ ", companyId: "
                      ++ show_null (OldPosition.companyId oldPosition))
             | Some company =>
                 jobRole <-
                   findOrCreateJobRole (OldPosition.position_title oldPosition)
                     (OldPosition.job_description oldPosition) ;;
                 match jobRole with
                 | None =>
                     inc_failed ;;
                     inc_failure PositionFailures.inc_missingJobRole ;;
                     ret ("Failed: Could not create or find JobRole for position "
                          ++ normalizedId ++ ", title: "
                          ++ OldPosition.position_title oldPosition)
                 | Some jobRole =>
                     let locationInfo :=
                       parseLocation (OldPosition.location oldPosition) in
                     try_catch
                       (now <- new_Date ;;
                        position_create
                          (newPositionData oldPosition normalizedId company
                             jobRole locationInfo now) ;;
                        inc_successful ;;
                        ret ("Success: Migrated position " ++ normalizedId
                             ++ " - " ++ OldPosition.position_title oldPosition))
                       (fun error =>
                          inc_failed ;;
                          inc_failure PositionFailures.inc_dataValidation ;;
                          ret ("Failed: Data validation error for position "
                               ++ normalizedId ++ ": " ++ JsError.message error))
                 end
             end
         end
     end)
    (fun error =>
       inc_failed ;;
       inc_failure PositionFailures.inc_other ;;
       ret ("Error: Unexpected error migrating position "
            ++ OldPosition.id oldPosition ++ ": " ++ JsError.message error)).

Definition process_positions : list OldPosition.t -> M ST unit :=
  process_page migratePosition.

Definition position_pages : nat -> nat -> nat -> nat -> M ST unit :=
  page_loop Source.positions migratePosition.

(** The head of the report printed after the last page (the failure
    breakdown, the duration and the success rate that follow it are not
    recorded). *)
Definition position_report : M ST unit :=
  s <- gets (fun w => Ledger.stats (globals w)) ;;
  console_log "----- Position Migration Report -----" ;;
  console_log ("Total positions processed: " ++ show_N (MigrationStats.total s)) ;;
  console_log ("Successfully migrated: " ++ show_N (MigrationStats.successful s)) ;;
  console_log ("Duplicates skipped: " ++ show_N (MigrationStats.duplicates s)) ;;
  console_log ("Failed migrations: " ++ show_N (MigrationStats.failed s)).

(** [migratePositions]. *)
Definition migratePositions : M ST unit :=
  try_catch
    (reset_ledger PositionFailures.zero ;;
     totalPositions <- read_source (fun s => length (Source.positions s)) ;;
     position_pages totalPositions 50 0 totalPositions ;;
     position_report)
    (fun error => console_log "Error during position migration:").

End PositionMigrator.

(* ================================================================== *)
(** * Contact migrator *)
(* ================================================================== *)

Module ContactFailures.
Record t := mk {
  uuidFormat : N;
  missingCompany : N;
  emailStatusError : N;
  duplicateEmail : N;
  dataValidation : N;
  dbError : N;
  other : N }.
Definition zero : t := mk 0 0 0 0 0 0 0.
Definition inc_uuidFormat (f : t) : t :=
  mk (uuidFormat f + 1) (missingCompany f) (emailStatusError f)
     (duplicateEmail f) (dataValidation f) (dbError f) (other f).
Definition inc_missingCompany (f : t) : t :=
  mk (uuidFormat f) (missingCompany f + 1) (emailStatusError f)
     (duplicateEmail f) (dataValidation f) (dbError f) (other f).
Definition inc_emailStatusError (f : t) : t :=
  mk (uuidFormat f) (missingCompany f) (emailStatusError f + 1)
     (duplicateEmail f) (dataValidation f) (dbError f) (other f).
Definition inc_duplicateEmail (f : t) : t :=
  mk (uuidFormat f) (missingCompany f) (emailStatusError f)
     (duplicateEmail f + 1) (dataValidation f) (dbError f) (other f).
Definition inc_dataValidation (f : t) : t :=
  mk (uuidFormat f) (missingCompany f) (emailStatusError f)
     (duplicateEmail f) (dataValidation f + 1) (dbError f) (other f).
Definition inc_other (f : t) : t :=
  mk (uuidFormat f) (missingCompany f) (emailStatusError f)
     (duplicateEmail f) (dataValidation f) (dbError f) (other f + 1).
End ContactFailures.

(** The e-mail written when [email] is already held by another contact:
    the drawn suffix goes before the [@] when the address has exactly one,
    and at the end otherwise. *)
Definition disambiguate_email (contactEmail drawn : string) : string :=
  let randomStr := Js.substring 2 8 drawn in
  match Js.split "@" contactEmail with
  | [local; host] => local ++ "+" ++ randomStr ++ "@" ++ host
  | _ => contactEmail ++ "+" ++ randomStr
  end.

Section ContactMigrator.
Abbreviation ST := (Ledger.t ContactFailures.t).

Definition findOrCreateEmailStatus (status : option string)
  : M ST (option StatusRow.t) :=
  let emailStatus := Js.or_else (option_map Js.toLowerCase status) "unavailable" in
  try_catch
    (existingStatus <- emailStatus_findFirst emailStatus ;;
     match existingStatus with
     | Some r => ret (Some r)
     | None =>
         let statusKey := underscore_spaces false (Js.toLowerCase emailStatus) in
         newStatus <-
           emailStatus_create
             (StatusRow.mk None "email_status" statusKey emailStatus None None
                "migration_script") ;;
         ret (Some newStatus)
     end)
    (fun error =>
       try_catch
         (let fallbackStatus := "unavailable" in
          existingFallback <- emailStatus_findFirst fallbackStatus ;;
          match existingFallback with
          | Some r => ret (Some r)
          | None =>
              newFallback <-
                emailStatus_create
                  (StatusRow.mk None "email_status" fallbackStatus
                     fallbackStatus None None "migration_script") ;;
              ret (Some newFallback)
          end)
         (fun fallbackError => ret None)).

Definition newContactData (oldContact : OldContact.t) (normalizedId : string)
    (company : CompanyRef.t) (emailStatus : StatusRow.t)
    (contactEmail : option string) (now : Z) : Contact.t :=
  Contact.mk
    normalizedId
    (Js.take 250
       (Js.or_else (OldContact.full_name oldContact)
          (Js.or_else
             (Some (Js.trim
                (Js.or_else (OldContact.first_name oldContact) "" ++ " "
                 ++ Js.or_else (OldContact.last_name oldContact) "")))
             "Unknown Contact")))
    (Js.take 250 (Js.or_else (OldContact.title oldContact) "Unknown Title"))
    (CompanyRef.id company)
    contactEmail
    None
    (OldContact.linkedin_url oldContact)
    (OldContact.apollo_id oldContact)
    (option_map (Js.take 100) (OldContact.first_name oldContact))
    (option_map (Js.take 100) (OldContact.last_name oldContact))
    (option_map (Js.take 200) (OldContact.full_name oldContact))
    (option_map (Js.take 500) (OldContact.linkedin_url oldContact))
    (option_map (Js.take 250) (OldContact.title oldContact))
    (StatusRow.value emailStatus)
    (option_map (Js.take 500) (OldContact.photo_url oldContact))
    (OldContact.organization_id oldContact)
    (OldContact.departments oldContact)
    (OldContact.subdepartments oldContact)
    (option_map (Js.take 100) (OldContact.seniority oldContact))
    (OldContact.functions oldContact)
    (OldContact.raw_body oldContact)
    (OldContact.createdAt oldContact)
    (match OldContact.updatedAt oldContact with
     | Some u => u
     | None => now
     end)
    (OldContact.isDeleted oldContact)
    (OldContact.deletedAt oldContact).

(** The e-mail uniqueness block of [migrateContact]: a truthy e-mail held
    by another contact is rewritten with a drawn suffix; a failing check
    keeps the original. *)
Definition unique_contact_email (email : option string) (normalizedId : string)
  : M ST (option string) :=
  match email with
  | None => ret None
  | Some contactEmail =>
      if Js.nonempty contactEmail then
        try_catch
          (existingEmail <- contact_findFirst_email contactEmail normalizedId ;;
           match existingEmail with
           | Some _ =>
               drawn <- random_base36 ;;
               ret (Some (disambiguate_email contactEmail drawn))
           | None => ret (Some contactEmail)
           end)
          (fun error => ret (Some contactEmail))
      else ret (Some contactEmail)
  end.

(** [migrateContact]: one record, one result line. *)
Definition migrateContact (oldContact : OldContact.t) : M ST string :=
  inc_total ;;
  try_catch
    (match normalizeUuid (Some (OldContact.id oldContact)) with
     | None =>
         inc_failed ;;
         inc_failure ContactFailures.inc_uuidFormat ;;
         ret ("Failed: Invalid UUID format for contact "
              ++ OldContact.id oldContact)
     | Some normalizedId =>
         early <-
           try_catch
             (existingContact <- contact_findUnique normalizedId ;;
              match existingContact with
              | Some _ =>
                  inc_duplicates ;;
                  ret (Some ("Duplicate: Contact " ++ normalizedId
                             ++ " already exists, skipping."))
              | None => ret None
              end)
             (fun error =>
                if has_code "P2023" error then
                  inc_failed ;;
                  inc_failure ContactFailures.inc_uuidFormat ;;
                  ret (Some ("Failed: UUID format error for contact "
                             ++ OldContact.id oldContact ++ ": "
                             ++ JsError.message error))
                else throw error) ;;
         match early with
         | Some line => ret line
         | None =>
             company <- findCompany (OldContact.companyId oldContact) ;;
             match company with
             | None =>
                 inc_failed ;;
                 inc_failure ContactFailures.inc_missingCompany ;;
                 ret ("Failed: Company not found for contact " ++ normalizedId
                      ++ ", companyId: "
                      ++ show_null (OldContact.companyId oldContact))
             | Some company =>
                 emailStatus <-
                   findOrCreateEmailStatus (OldContact.email_status oldContact) ;;
                 match emailStatus with
                 | None =>
                     inc_failed ;;
                     inc_failure ContactFailures.inc_emailStatusError ;;
                     ret ("Failed: Could not create or find EmailStatus for contact "
                          ++ normalizedId)
                 | Some emailStatus =>
                     contactEmail <-
                       unique_contact_email (OldContact.email oldContact)
                         normalizedId ;;
                     now <- new_Date ;;
                     contact_create
                       (newContactData oldContact normalizedId company
                          emailStatus contactEmail now) ;;
                     inc_successful ;;
                     ret ("Success: Migrated contact " ++ normalizedId ++ " - "
                          ++ Js.or_else (OldContact.full_name oldContact)
                               "Unknown")
                 end
             end
         end
     end)
    (fun error =>
       if has_code "P2002" error && target_includes "email" error then
         inc_failed ;;
         inc_failure ContactFailures.inc_duplicateEmail ;;
         ret ("Failed: Duplicate email error for contact "
              ++ OldContact.id oldContact ++ ": "
              ++ show_null (OldContact.email oldContact))
       else if has_code "P2000" error then
         inc_failed ;;
         inc_failure ContactFailures.inc_dataValidation ;;
         ret ("Failed: Data too long for contact "
              ++ OldContact.id oldContact ++ ": "
              ++ String.concat "," (JsError.target error))
       else
         inc_failed ;;
         inc_failure ContactFailures.inc_other ;;
         ret ("Error: Unexpected error migrating contact "
              ++ OldContact.id oldContact ++ ": " ++ JsError.message error)).

Definition process_contacts : list OldContact.t -> M ST unit :=
  process_page migrateContact.

Definition contact_pages : nat -> nat -> nat -> nat -> M ST unit :=
  page_loop Source.contacts migrateContact.

(** The head of the report printed after the last page. *)
Definition contact_report : M ST unit :=
  s <- gets (fun w => Ledger.stats (globals w)) ;;
  console_log "----- Contact Migration Report -----" ;;
  console_log ("Total contacts processed: " ++ show_N (MigrationStats.total s)) ;;
  console_log ("Successfully migrated: " ++ show_N (MigrationStats.successful s)) ;;
  console_log ("Duplicates skipped: " ++ show_N (MigrationStats.duplicates s)) ;;
  console_log ("Failed migrations: " ++ show_N (MigrationStats.failed s)).

(** [migrateContacts]. *)
Definition migrateContacts : M ST unit :=
  try_catch
    (reset_ledger ContactFailures.zero ;;
     totalContacts <- read_source (fun s => length (Source.contacts s)) ;;
     contact_pages totalContacts 50 0 totalContacts ;;
     contact_report)
    (fun error => console_log "Error during contact migration:").

End ContactMigrator.

(* ================================================================== *)
(** * Sample stores and records *)
(* ================================================================== *)

Definition no_source : Source.t := Source.mk [] [] [] [].
Definition no_rows : Target.t := Target.mk [] [] [] [] [] [] [] [].

(** A world with the given stores, no scheduled fault and no draws. *)
Definition quiet_world {ST} (s : Source.t) (t : Target.t) (g : ST) : World ST :=
  mkWorld s t [] [] [] 0%Z [] g.

Definition acme : Company.t :=
  Company.mk "c-1" "Acme" "http://acme.test" "acme.test" None None None
    "migration_script" 0 "migration_script" 0 "Potential Client" false None
    None None None None None.

Definition stuck_lead : OldLead.t :=
  OldLead.mk "l-1" "ann@acme.test" false false (Some "c-1") None
    true false false false 3 true 0 None false None.

(** The company a lead points to, as the target store resolves it. *)
Definition resolved_company (oldLead : OldLead.t) (t : Target.t)
  : option Company.t :=
  match OldLead.companyId oldLead with
  | Some companyId =>
      if Js.nonempty companyId
      then find (fun c => String.eqb (Company.id c) companyId) (Target.company t)
      else None
  | None => None
  end.

(** A company status stored under a mistyped key in an earlier run. *)
Definition mistyped_status : StatusRow.t :=
  company_status_row "potential-client" "Potential Client".

Definition mistyped_status_world : World unit :=
  quiet_world no_source (Target.set_companyStatus [mistyped_status] no_rows) tt.

(** A lead status stored with key and value swapped. *)
Definition swapped_lead_status : StatusRow.t :=
  lead_status_row "New Lead" "New Lead".

Definition swapped_lead_status_world : World unit :=
  quiet_world no_source (Target.set_leadStatus [swapped_lead_status] no_rows) tt.

Definition connection_lost : JsError.t :=
  JsError.mk None [] "Can't reach database server".

(** The target store is unreachable at the first call. *)
Definition unreachable_world : World unit :=
  set_faults [Some connection_lost] (quiet_world no_source no_rows tt).

(** A parser for sources without [raw_body]. *)
Definition no_json (s : string) : option RawBody.t := None.

(* ================================================================== *)
(** * The reference a fault-free store resolves *)
(* ================================================================== *)

(** Step 1 of the resolver, read off the stores: the target row whose
    identifier is the normalised legacy identifier. *)
Definition resolved_by_id (rawId : string) (t : Target.t) : option Company.t :=
  match normalizeUuid (Some rawId) with
  | Some normalizedId =>
      find (fun c => String.eqb (Company.id c) normalizedId) (Target.company t)
  | None => None
  end.

(** The normalised domain of the source record with this identifier, when
    the record exists and the domain and its normal form are not empty. *)
Definition source_domain (rawId : string) (s : Source.t) : option string :=
  match find (fun c => String.eqb (OldCompany.id c) rawId) (Source.companies s) with
  | Some oc =>
      if Js.nonempty (OldCompany.domain oc)
         && Js.nonempty (normalizeDomain (OldCompany.domain oc))
      then Some (normalizeDomain (OldCompany.domain oc))
      else None
  | None => None
  end.

(** Step 2 of the resolver, read off the stores: the first exact match of
    the normalised domain, else the first row passing the [OR] filter. *)
Definition resolved_by_domain (rawId : string) (s : Source.t) (t : Target.t)
  : option Company.t :=
  match source_domain rawId s with
  | Some normalizedDomain =>
      match find (fun c => String.eqb (Company.domain c) normalizedDomain)
                 (Target.company t) with
      | Some c => Some c
      | None => find (domain_or_filter normalizedDomain) (Target.company t)
      end
  | None => None
  end.

Definition resolved (rawId : string) (s : Source.t) (t : Target.t)
  : option Company.t :=
  match resolved_by_id rawId t with
  | Some c => Some c
  | None => resolved_by_domain rawId s t
  end.

Definition example_source_company : OldCompany.t :=
  OldCompany.mk "0627caad-6165-48ca-8c74-aac1d9783d92" None "www.example.com"
    None None None None None 0 None false None.

Definition company_with (id domain : string) : Company.t :=
  Company.mk id ("Company " ++ id) ("http://" ++ domain) domain None None None
    "migration_script" 0 "migration_script" 0 "Potential Client" false None
    None None None None None.

Definition zero_stats {F} (zero : F) : Ledger.t F :=
  Ledger.mk (MigrationStats.mk 0 0 0 0 (CompanyMatches.mk 0 0) zero) [] [] [].

(** Two target companies: the first only contains the key as a substring,
    the second equals it up to case. *)
Definition overlapping_domains_world : World (Ledger.t PositionFailures.t) :=
  quiet_world
    (Source.mk [example_source_company] [] [] [])
    (Target.set_company
       [company_with "a1" "myexample.com"; company_with "b2" "Example.com"]
       no_rows)
    (zero_stats PositionFailures.zero).

Definition example_company : Company.t :=
  company_with "0627caad616548ca8c74aac1d9783d92" "example.com".

Definition contact_with (id : string) (email : option string) : Contact.t :=
  Contact.mk id "Known Contact" "Unknown Title"
    "0627caad616548ca8c74aac1d9783d92" email None None "apollo-0" None None
    None None None "unavailable" None None [] [] None [] "{}" 0 0 false None.

Definition old_contact_with (id : string) (email : option string)
  : OldContact.t :=
  OldContact.mk id "apollo-1" (Some "Ann") (Some "Lee") (Some "Ann Lee") None
    None None email None None [] [] None [] "{}"
    (Some "0627caad-6165-48ca-8c74-aac1d9783d92") 0 None false None.

Definition unavailable_status : StatusRow.t :=
  StatusRow.mk None "email_status" "unavailable" "unavailable" None None
    "migration_script".

(** A target store with the company, the default e-mail status and one
    contact holding [email]; [draws] are the coming renderings of
    [Math.random()]. *)
Definition contact_world (email : option string) (draws : list string)
  : World (Ledger.t ContactFailures.t) :=
  set_randoms draws
    (quiet_world no_source
       (Target.set_contact
          [contact_with "11111111111111111111111111111111" email]
          (Target.set_contactEmailStatus [unavailable_status]
             (Target.set_company [example_company] no_rows)))
       (zero_stats ContactFailures.zero)).

(** The rendering the next [Math.random().toString(36)] will produce. *)
Definition next_draw {ST} (w : World ST) : string :=
  match randoms w with
  | [] => "0"
  | r :: _ => r
  end.

Definition no_at (s : string) : Prop :=
  Js.all_chars (fun c => negb (Ascii.eqb c "@")) s = true.

Fixpoint count_at (s : string) : nat :=
  match s with
  | EmptyString => 0
  | String c r => (if Ascii.eqb c "@" then 1 else 0) + count_at r
  end.

(** A source with one company and an empty target store. *)
Definition one_company_world : World unit :=
  quiet_world (Source.mk [example_source_company] [] [] []) no_rows tt.

(** A source position of the example company, and a store pair holding
    it: the company is in both stores, the position only in the source. *)
Definition example_position : OldPosition.t :=
  OldPosition.mk "9d8a1f0e-2b3c-4d5e-8f60-718293a4b5c6" None "Staff Engineer"
    None "http://example.com/jobs/1" (Some "Austin, TX, US") None
    (Some "0627caad-6165-48ca-8c74-aac1d9783d92") 0 None false None.

Definition one_position_world : World (Ledger.t PositionFailures.t) :=
  quiet_world
    (Source.mk [example_source_company] [] [example_position] [])
    (Target.set_company [example_company] no_rows)
    (zero_stats PositionFailures.zero).

(** A title hash for the examples: the normalized title itself. *)
Definition title_itself (title : string) : string := title.

(* ================================================================== *)
(** * Vocabulary of the ledger properties *)
(* ================================================================== *)

(** What the ledger counts for a record: everything but [companyMatches]. *)
Definition counts {F} (s : MigrationStats.t F) : N * N * N * N * F :=
  (MigrationStats.total s, MigrationStats.successful s,
   MigrationStats.duplicates s, MigrationStats.failed s,
   MigrationStats.failures s).

Definition ledger {F} (w : World (Ledger.t F)) : MigrationStats.t F :=
  Ledger.stats (globals w).

(** One record has been entered in the ledger: [total] went up by one and
    so did exactly one of [successful], [duplicates] and [failed], the
    last together with exactly one of the failure [categories]. *)
Inductive recorded {F} (categories : list (F -> F))
    (s s' : MigrationStats.t F) : Prop :=
| recorded_success :
    counts s'
    = (MigrationStats.total s + 1, MigrationStats.successful s + 1,
       MigrationStats.duplicates s, MigrationStats.failed s,
       MigrationStats.failures s)%N ->
    recorded categories s s'
| recorded_duplicate :
    counts s'
    = (MigrationStats.total s + 1, MigrationStats.successful s,
       MigrationStats.duplicates s + 1, MigrationStats.failed s,
       MigrationStats.failures s)%N ->
    recorded categories s s'
| recorded_failure (category : F -> F) :
    In category categories ->
    counts s'
    = (MigrationStats.total s + 1, MigrationStats.successful s,
       MigrationStats.duplicates s, MigrationStats.failed s + 1,
       category (MigrationStats.failures s))%N ->
    recorded categories s s'.

Definition position_categories : list (PositionFailures.t -> PositionFailures.t) :=
  [ PositionFailures.inc_uuidFormat; PositionFailures.inc_missingCompany;
    PositionFailures.inc_missingJobRole; PositionFailures.inc_dataValidation;
    PositionFailures.inc_other ].

Definition contact_categories : list (ContactFailures.t -> ContactFailures.t) :=
  [ ContactFailures.inc_uuidFormat; ContactFailures.inc_missingCompany;
    ContactFailures.inc_emailStatusError; ContactFailures.inc_duplicateEmail;
    ContactFailures.inc_dataValidation; ContactFailures.inc_other ].

(** The ledger is balanced. *)
Definition balanced {F} (s : MigrationStats.t F) : Prop :=
  MigrationStats.total s
  = (MigrationStats.successful s + MigrationStats.duplicates s
     + MigrationStats.failed s)%N.

(** The counts before and after one of the three closing moves of a
    record ([total] has been stepped already). *)
Inductive entered {F} (categories : list (F -> F))
  : N * N * N * N * F -> N * N * N * N * F -> Prop :=
| entered_success t s d f x :
    entered categories (t, s, d, f, x) (t, s + 1, d, f, x)%N
| entered_duplicate t s d f x :
    entered categories (t, s, d, f, x) (t, s, d + 1, f, x)%N
| entered_failure category t s d f x :
    In category categories ->
    entered categories (t, s, d, f, x) (t, s, d, f + 1, category x)%N.

Section LedgerPredicates.
Context {F : Type}.
Abbreviation ST := (Ledger.t F).

(** A computation that leaves the counts alone, whatever its outcome. *)
Definition keeps {A} (m : M ST A) : Prop :=
  forall w, counts (ledger (snd (m w))) = counts (ledger w).

(** A computation that enters the record exactly when it returns a value
    marked [final], and leaves the counts alone when it returns another
    value or throws. *)
Definition settles {A} (categories : list (F -> F)) (final : A -> bool)
    (m : M ST A) : Prop :=
  forall w,
    match m w with
    | (Ok a, w') =>
        if final a
        then entered categories (counts (ledger w)) (counts (ledger w'))
        else counts (ledger w') = counts (ledger w)
    | (Throw _, w') => counts (ledger w') = counts (ledger w)
    end.

(** A computation that keeps a balanced ledger balanced. *)
Definition steady {A} (m : M ST A) : Prop :=
  forall w, balanced (ledger w) -> balanced (ledger (snd (m w))).

End LedgerPredicates.

Definition matches_of {F} (w : World (Ledger.t F)) : CompanyMatches.t :=
  MigrationStats.companyMatches (ledger w).

(** The company table holds [row] under its identifier and no other
    identifier holds its domain: the state an [upsert] of [row] leaves. *)
Definition upserted (row : Company.t) (rows : list Company.t) : Prop :=
  Forall (fun c =>
            if String.eqb (Company.id c) (Company.id row) then c = row
            else String.eqb (Company.domain c) (Company.domain row) = false)
         rows
  /\ In row rows.

(** Two worlds that differ at most in the ledger, the console, the
    generated identifiers and the enumeration and job-role tables. *)
Definition calm {ST} (w w' : World ST) : Prop :=
  source w' = source w
  /\ faults w' = faults w
  /\ randoms w' = randoms w
  /\ clock w' = clock w
  /\ Target.company (target w') = Target.company (target w)
  /\ Target.position (target w') = Target.position (target w)
  /\ Target.contact (target w') = Target.contact (target w).

(** The result lines of the two record functions. *)
Definition success_position_line (normalizedId : string)
    (oldPosition : OldPosition.t) : string :=
  "Success: Migrated position " ++ normalizedId ++ " - "
  ++ OldPosition.position_title oldPosition.

Definition success_contact_line (normalizedId : string)
    (oldContact : OldContact.t) : string :=
  "Success: Migrated contact " ++ normalizedId ++ " - "
  ++ Js.or_else (OldContact.full_name oldContact) "Unknown".

Definition duplicate_position_line (normalizedId : string) : string :=
  "Duplicate: Position " ++ normalizedId ++ " already exists, skipping.".

Definition duplicate_contact_line (normalizedId : string) : string :=
  "Duplicate: Contact " ++ normalizedId ++ " already exists, skipping.".

(** What no step of the position and contact migrators undoes: the source
    is read-only, a fault schedule that is exhausted stays exhausted, the
    rows of [position] and [contact] are only appended to, [company] is
    not written, and the result arrays are left to the pass loop. *)
Definition stable {F} (w w' : World (Ledger.t F)) : Prop :=
  source w' = source w
  /\ (faults w = [] -> faults w' = [])
  /\ (exists ps,
        Target.position (target w') = (Target.position (target w) ++ ps)%list)
  /\ (exists cs, Target.contact (target w') = (Target.contact (target w) ++ cs)%list)
  /\ Target.company (target w') = Target.company (target w)
  /\ Ledger.successResults (globals w') = Ledger.successResults (globals w)
  /\ Ledger.failureResults (globals w') = Ledger.failureResults (globals w)
  /\ Ledger.duplicateResults (globals w')
     = Ledger.duplicateResults (globals w).

(** Only the console and the fault schedule moved. *)
Definition untouched {ST} (w w' : World ST) : Prop :=
  source w' = source w /\ target w' = target w /\ globals w' = globals w
  /\ (faults w = [] -> faults w' = []).

Section PassVocabulary.
Context {F R : Type}.
Variable rows : Source.t -> list R.
Variable key : R -> option string.
Variable known : string -> Target.t -> bool.
Variable success_line : string -> R -> string.

(** Every line filed under [successResults] is the success line of a
    source record whose normalised identifier is in the target table. *)
Definition migrated_lines_known (w : World (Ledger.t F)) : Prop :=
  forall line,
    In line (Ledger.successResults (globals w)) ->
    exists record normalizedId,
      In record (rows (source w))
      /\ key record = Some normalizedId
      /\ line = success_line normalizedId record
      /\ known normalizedId (target w) = true.

(** What a pass never undoes: the source, an exhausted fault schedule, the
    identifiers known to the target table, the lines filed as duplicates. *)
Definition lasting (w w' : World (Ledger.t F)) : Prop :=
  source w' = source w
  /\ (faults w = [] -> faults w' = [])
  /\ (forall normalizedId,
        known normalizedId (target w) = true ->
        known normalizedId (target w') = true)
  /\ incl (Ledger.duplicateResults (globals w))
          (Ledger.duplicateResults (globals w')).

End PassVocabulary.

Definition position_key (oldPosition : OldPosition.t) : option string :=
  normalizeUuid (Some (OldPosition.id oldPosition)).

Definition contact_key (oldContact : OldContact.t) : option string :=
  normalizeUuid (Some (OldContact.id oldContact)).

Definition position_known (normalizedId : string) (t : Target.t) : bool :=
  existsb (fun p => String.eqb (Position.id p) normalizedId) (Target.position t).

Definition contact_known (normalizedId : string) (t : Target.t) : bool :=
  existsb (fun c => String.eqb (Contact.id c) normalizedId) (Target.contact t).

(** The company reference of a record cannot be resolved by the stores. *)
Definition company_unresolved (companyId : option string) (s : Source.t)
    (t : Target.t) : Prop :=
  match companyId with
  | None => True
  | Some rawId => Js.nonempty rawId = false \/ resolved rawId s t = None
  end.

(** Nothing is left to do for a position: its identifier is malformed, or
    already in the target, or its company cannot be resolved. *)
Definition position_settled {ST} (oldPosition : OldPosition.t) (w : World ST)
  : Prop :=
  match position_key oldPosition with
  | None => True
  | Some normalizedId =>
      position_known normalizedId (target w) = true
      \/ company_unresolved (OldPosition.companyId oldPosition)
           (source w) (target w)
  end.

(** A computation every run of which is related to its start by [R]. *)
Definition respects {ST A} (R : World ST -> World ST -> Prop) (m : M ST A)
  : Prop :=
  forall w, R w (snd (m w)).

Definition always {A} (a : A) : bool := true.
Definition is_some {A} (o : option A) : bool :=
  match o with Some _ => true | None => false end.

(* ================================================================== *)
(** * Properties *)
(* ================================================================== *)

(** ** Strings *)

Lemma length_append (s t : string) :
  String.length (s ++ t) = String.length s + String.length t.
Proof. induction s as [|c s IH]; simpl; [reflexivity | now rewrite IH]. Qed.

Lemma length_repeat_char (c : ascii) (n : nat) :
  String.length (Js.repeat_char c n) = n.
Proof. induction n as [|n IH]; simpl; [reflexivity | now rewrite IH]. Qed.

Lemma take_append (s t : string) : Js.take (String.length s) (s ++ t) = s.
Proof. induction s as [|c s IH]; simpl; [now destruct t | now rewrite IH]. Qed.

Lemma drop_append (s t : string) : Js.drop (String.length s) (s ++ t) = t.
Proof. induction s as [|c s IH]; simpl; [reflexivity | exact IH]. Qed.

Lemma is_hex_is_hex_i (c : ascii) : Js.is_hex c = true -> Js.is_hex_i c = true.
Proof. unfold Js.is_hex, Js.is_hex_i. intros ->. reflexivity. Qed.

Lemma all_hex_all_hex_i (s : string) :
  Js.all_chars Js.is_hex s = true -> Js.all_chars Js.is_hex_i s = true.
Proof.
  induction s as [|c s IH]; simpl; [reflexivity|].
  intros H. apply andb_true_iff in H as [Hc Hs].
  now rewrite (is_hex_is_hex_i _ Hc), IH.
Qed.

Lemma test_hex_test_hex_i (n : nat) (s : string) :
  Js.test_hex n s = true -> Js.test_hex_i n s = true.
Proof.
  unfold Js.test_hex, Js.test_hex_i. intros H.
  apply andb_true_iff in H as [Hl Hc].
  now rewrite Hl, all_hex_all_hex_i.
Qed.

Lemma test_hex_i_length (n : nat) (s : string) :
  Js.test_hex_i n s = true -> String.length s = n.
Proof.
  unfold Js.test_hex_i. intros H.
  apply andb_true_iff in H as [Hl _]. now apply Nat.eqb_eq.
Qed.

Lemma remainder_nonempty (s : string) :
  0 < String.length (Js.remove_dashes s) -> Js.nonempty s = true.
Proof. destruct s; simpl; [lia | reflexivity]. Qed.

(** Lower-casing leaves a string of [[0-9a-f]] characters alone. *)
Lemma lower_char_hex (c : ascii) : Js.is_hex c = true -> Js.lower_char c = c.
Proof.
  unfold Js.is_hex, Js.lower_char, Js.is_upper. intros H.
  destruct ((65 <=? nat_of_ascii c) && (nat_of_ascii c <=? 90)) eqn:U;
    [|reflexivity].
  exfalso.
  apply andb_true_iff in U as [U1 U2].
  apply Nat.leb_le in U1, U2.
  apply orb_true_iff in H as [H|H]; apply andb_true_iff in H as [H1 H2];
    apply Nat.leb_le in H1, H2; lia.
Qed.

Lemma toLowerCase_hex (s : string) :
  Js.all_chars Js.is_hex s = true -> Js.toLowerCase s = s.
Proof.
  induction s as [|c s IH]; simpl; [reflexivity|].
  intros H. apply andb_true_iff in H as [Hc Hs].
  now rewrite (lower_char_hex _ Hc), IH.
Qed.

(** ** Identifier Normalizer *)

Example normalizeUuid_dashed :
  normalizeUuid (Some "0627caad-6165-48ca-8c74-aac1d9783d92")
  = Some "0627caad616548ca8c74aac1d9783d92".
Proof. reflexivity. Qed.

Example normalizeUuid_objectid :
  normalizeUuid (Some "507f1f77bcf86cd799439011")
  = Some "507f1f77bcf86cd79943901100000000".
Proof. reflexivity. Qed.

Lemma normalizeUuid_32 (s : string) :
  Js.test_hex_i 32 (Js.remove_dashes s) = true ->
  normalizeUuid (Some s) = Some (Js.remove_dashes s).
Proof.
  intros H. unfold normalizeUuid.
  rewrite remainder_nonempty by (rewrite (test_hex_i_length _ _ H); lia).
  simpl. now rewrite H.
Qed.

(** C4 (as stated, refuted): an identifier with upper-case hex digits passes
    the case-insensitive 32-character test and is returned as it is, not in
    lower case. *)
Lemma normalizeUuid_keeps_upper_case :
  Js.test_hex_i 32 (Js.remove_dashes "0627CAAD-6165-48CA-8C74-AAC1D9783D92")
  = true
  /\ normalizeUuid (Some "0627CAAD-6165-48CA-8C74-AAC1D9783D92")
     = Some "0627CAAD616548CA8C74AAC1D9783D92"
  /\ normalizeUuid (Some "0627CAAD-6165-48CA-8C74-AAC1D9783D92")
     <> Some (Js.toLowerCase
                (Js.remove_dashes "0627CAAD-6165-48CA-8C74-AAC1D9783D92")).
Proof. split; [reflexivity | split; [reflexivity | discriminate]]. Qed.

(** C4 (amended): when the dash-stripped input is 32 hex characters in
    either case, [normalizeUuid] returns that remainder unchanged; the
    result is the lower-case form only when the remainder is written with
    [[0-9a-f]] already. *)
Theorem normalizeUuid_32_returns_remainder (s : string) :
  Js.test_hex_i 32 (Js.remove_dashes s) = true ->
  normalizeUuid (Some s) = Some (Js.remove_dashes s)
  /\ (Js.test_hex 32 (Js.remove_dashes s) = true ->
      normalizeUuid (Some s) = Some (Js.toLowerCase (Js.remove_dashes s))).
Proof.
  intros H. split; [now apply normalizeUuid_32|].
  intros Hl. rewrite normalizeUuid_32 by exact H.
  unfold Js.test_hex in Hl. apply andb_true_iff in Hl as [_ Hc].
  now rewrite toLowerCase_hex.
Qed.

Lemma normalizeUuid_32_returns_remainder_witness :
  normalizeUuid (Some "0627CAAD-6165-48ca-8c74-aac1d9783d92")
  = Some "0627CAAD616548ca8c74aac1d9783d92".
Proof.
  exact (proj1 (normalizeUuid_32_returns_remainder
                  "0627CAAD-6165-48ca-8c74-aac1d9783d92" eq_refl)).
Defined.

(** C5 (as stated, refuted): a malformed identifier and a missing one give
    the same result, null; no error value tells them apart. *)
Lemma normalizeUuid_malformed_same_as_null :
  Js.test_hex_i 32 (Js.remove_dashes "not-a-uuid") = false
  /\ Js.test_hex_i 24 (Js.remove_dashes "not-a-uuid") = false
  /\ normalizeUuid (Some "not-a-uuid") = normalizeUuid None.
Proof. split; [reflexivity | split; reflexivity]. Qed.

(** C5 (amended): null input returns null, and every string whose
    dash-stripped form is neither 32 nor 24 hex characters returns null as
    well; [normalizeUuid] raises no error. *)
Theorem normalizeUuid_null_and_malformed (s : string) :
  Js.test_hex_i 32 (Js.remove_dashes s) = false ->
  Js.test_hex_i 24 (Js.remove_dashes s) = false ->
  normalizeUuid None = None /\ normalizeUuid (Some s) = None.
Proof.
  intros H32 H24. split; [reflexivity|].
  unfold normalizeUuid. destruct (negb (Js.nonempty s)); [reflexivity|].
  simpl. now rewrite H32, H24.
Qed.

Lemma normalizeUuid_null_and_malformed_witness :
  normalizeUuid None = None /\ normalizeUuid (Some "12345") = None.
Proof.
  apply (normalizeUuid_null_and_malformed "12345"); reflexivity.
Defined.

(** C6: when the dash-stripped input is 24 characters of [[0-9a-f]], the
    result is that remainder followed by eight ['0']: 32 characters, the
    first 24 the remainder, the last 8 ["00000000"]. *)
Theorem normalizeUuid_24_pads_with_zeros (s : string) :
  Js.test_hex 24 (Js.remove_dashes s) = true ->
  exists r,
    normalizeUuid (Some s) = Some r
    /\ r = Js.remove_dashes s ++ "00000000"
    /\ String.length r = 32
    /\ Js.substring 0 24 r = Js.remove_dashes s
    /\ Js.substring 24 32 r = "00000000".
Proof.
  intros H. apply test_hex_test_hex_i in H.
  pose proof (test_hex_i_length _ _ H) as L.
  exists (Js.remove_dashes s ++ "00000000").
  assert (E : normalizeUuid (Some s) = Some (Js.remove_dashes s ++ "00000000")).
  { unfold normalizeUuid.
    rewrite remainder_nonempty by (rewrite L; lia). simpl.
    replace (Js.test_hex_i 32 (Js.remove_dashes s)) with false
      by (unfold Js.test_hex_i; rewrite L; reflexivity).
    rewrite H. unfold Js.padEnd. rewrite L. reflexivity. }
  split; [exact E|]. split; [reflexivity|].
  split; [rewrite length_append, L; reflexivity|].
  unfold Js.substring. split.
  - simpl Js.drop. replace (24 - 0) with (String.length (Js.remove_dashes s))
      by (rewrite L; reflexivity).
    apply take_append.
  - change (32 - 24) with 8. rewrite <- L, drop_append. reflexivity.
Qed.

Lemma normalizeUuid_24_pads_with_zeros_witness :
  exists r,
    normalizeUuid (Some "507f1f77-bcf86cd7-99439011") = Some r
    /\ r = Js.remove_dashes "507f1f77-bcf86cd7-99439011" ++ "00000000"
    /\ String.length r = 32
    /\ Js.substring 0 24 r = Js.remove_dashes "507f1f77-bcf86cd7-99439011"
    /\ Js.substring 24 32 r = "00000000".
Proof.
  apply (normalizeUuid_24_pads_with_zeros "507f1f77-bcf86cd7-99439011").
  reflexivity.
Defined.

(** ** Lists *)

Lemma find_none_existsb {A} (p : A -> bool) (l : list A) :
  find p l = None -> existsb p l = false.
Proof.
  induction l as [|x l IH]; simpl; [reflexivity|].
  destruct (p x); [discriminate | exact IH].
Qed.

Lemma existsb_false_find {A} (p : A -> bool) (l : list A) :
  existsb p l = false -> find p l = None.
Proof.
  induction l as [|x l IH]; simpl; [reflexivity|].
  destruct (p x); [discriminate | exact IH].
Qed.

(** ** Running in a world whose stores answer *)

Section FaultFree.
Context {ST : Type}.

Lemma io_answers (w : World ST) : faults w = [] -> io w = (Ok tt, w).
Proof. unfold io. now intros ->. Qed.

Lemma read_target_answers {A} (f : Target.t -> A) (w : World ST) :
  faults w = [] -> read_target f w = (Ok (f (target w)), w).
Proof. intros H. unfold read_target, bind, gets. now rewrite io_answers. Qed.

Lemma read_source_answers {A} (f : Source.t -> A) (w : World ST) :
  faults w = [] -> read_source f w = (Ok (f (source w)), w).
Proof. intros H. unfold read_source, bind, gets. now rewrite io_answers. Qed.

End FaultFree.

(** ** Lead status *)

(** C1 (as stated, refuted): a stuck (and pending) lead whose company
    resolves in the target store is written with status
    ["converted_to_company"], not with the stuck-rule outcome ["failed"]. *)
Lemma stuck_lead_with_resolved_company_is_converted :
  OldLead.isStuck stuck_lead = true
  /\ determineLeadStatus stuck_lead = "failed"
  /\ map Lead.status
       (Target.lead (target (snd
          (migrateOldLead stuck_lead Counts.zero
             (quiet_world no_source (Target.set_company [acme] no_rows) tt)))))
     = ["converted_to_company"].
Proof. split; [reflexivity | split; reflexivity]. Qed.

(** C1 (amended): for a lead not yet in the target store, the status
    written follows one fixed precedence in which exactly one rule fires: a
    company reference that resolves in the target store gives
    ["converted_to_company"]; otherwise the stuck flag gives ["failed"],
    otherwise the pending flag gives ["in_progress"], otherwise the default
    ["new_lead"].  So a stuck lead is ["failed"] exactly when its company
    does not resolve, and a lead that is both stuck and pending never gets
    the pending-rule outcome. *)
Theorem lead_status_precedence {ST} (oldLead : OldLead.t) (c : Counts.t)
    (w : World ST) :
  faults w = [] ->
  find (fun l => String.eqb (Lead.email l) (OldLead.email oldLead))
       (Target.lead (target w)) = None ->
  existsb (fun l => String.eqb (Lead.id l) (OldLead.id oldLead))
          (Target.lead (target w)) = false ->
  exists row,
    migrateOldLead oldLead c w
    = (Ok (Counts.success c),
       set_target (Target.set_lead (Target.lead (target w) ++ [row]) (target w)) w)
    /\ Lead.id row = OldLead.id oldLead
    /\ Lead.status row
       = match resolved_company oldLead (target w) with
         | Some _ => "converted_to_company"
         | None =>
             if OldLead.isStuck oldLead then "failed"
             else if OldLead.isPending oldLead then "in_progress"
             else "new_lead"
         end
    /\ (OldLead.isStuck oldLead = true -> Lead.status row <> "in_progress").
Proof.
  intros HF Hemail Hid.
  assert (Hex : existsb
            (fun l => String.eqb (Lead.email l) (OldLead.email oldLead))
            (Target.lead (target w)) = false).
  { now apply find_none_existsb. }
  unfold migrateOldLead, try_catch, bind, lead_findUnique_email.
  rewrite read_target_answers by exact HF. rewrite Hemail.
  unfold resolved_company.
  destruct (OldLead.companyId oldLead) as [cid|] eqn:Ecid.
  - destruct (Js.nonempty cid) eqn:Ene.
    + unfold company_findUnique_id, company_findFirst, bind.
      rewrite read_target_answers by exact HF.
      destruct (find _ (Target.company (target w))) as [co|] eqn:Eco.
      * eexists. unfold ret, lead_create, bind, gets.
        rewrite io_answers by exact HF. simpl.
        rewrite Hid, Hex. unfold write_target, modify.
        repeat split. discriminate.
      * eexists. unfold ret, lead_create, bind, gets.
        rewrite io_answers by exact HF. simpl.
        rewrite Hid, Hex. unfold write_target, modify.
        split; [reflexivity|]. split; [reflexivity|]. simpl.
        unfold determineLeadStatus.
        destruct (OldLead.isStuck oldLead), (OldLead.isPending oldLead);
          rewrite ?Ecid; simpl; rewrite ?Ene;
          (split; [reflexivity | intros; try discriminate]).
    + eexists. unfold ret, lead_create, bind, gets.
      rewrite io_answers by exact HF. simpl.
      rewrite Hid, Hex. unfold write_target, modify.
      split; [reflexivity|]. split; [reflexivity|]. simpl.
      unfold determineLeadStatus.
      destruct (OldLead.isStuck oldLead), (OldLead.isPending oldLead);
        rewrite ?Ecid; simpl; rewrite ?Ene;
        (split; [reflexivity | intros; try discriminate]).
  - eexists. unfold ret, lead_create, bind, gets.
    rewrite io_answers by exact HF. simpl.
    rewrite Hid, Hex. unfold write_target, modify.
    split; [reflexivity|]. split; [reflexivity|]. simpl.
    unfold determineLeadStatus.
    destruct (OldLead.isStuck oldLead), (OldLead.isPending oldLead);
      rewrite ?Ecid; simpl;
      (split; [reflexivity | intros; try discriminate]).
Qed.

(** ** Lookup-table reconciliation *)

(** C7 (the code departs from it): the store holds the status
    ["Potential Client"] under a mistyped key.  The seeding of the company
    migrator looks the key up, finds nothing and goes straight to [create],
    which the store rejects; the display value is never consulted.  The
    find-or-create of the test script, on the same store, falls back to the
    value, finds the row and creates nothing.  The lead seeding has the
    same shape as the company seeding. *)
Theorem seeding_skips_the_value_fallback :
  find_status_key "potential_client"
    (Target.companyStatus (target mistyped_status_world)) = None
  /\ find_status_value "Potential Client"
       (Target.companyStatus (target mistyped_status_world))
     = Some mistyped_status
  /\ fst (@ensureCompanyStatuses unit mistyped_status_world)
     = Throw (unique_violation "value")
  /\ @TestLead.ensureCompanyStatus unit mistyped_status_world
     = (Ok tt, mistyped_status_world)
  /\ fst (@ensureLeadStatuses unit swapped_lead_status_world)
     = Throw (unique_violation "value").
Proof. repeat split; reflexivity. Qed.

(** ** Exit code of the company script *)

Lemma console_log_run {ST} (line : string) (w : World ST) :
  console_log line w = (Ok tt, set_out (out w ++ [line]) w).
Proof. reflexivity. Qed.

(** C8 (the code departs from it): whenever the status seeding throws and
    the two disconnects go through, [migrateCompanies] swallows the
    exception: the script prints the failure banner, then the success
    line, and exits with code 0 although no report was written. *)
Theorem seeding_failure_exits_zero {ST} (JSON_parse : string -> option RawBody.t)
    (w w' : World ST) (e : JsError.t) :
  ensureCompanyStatuses w = (Throw e, w') ->
  faults w' = [] ->
  company_main JSON_parse w
  = (0%Z,
     set_out (out w' ++ ["Migration failed:";
                         "Migration script completed successfully"]) w').
Proof.
  intros Hs Hf.
  unfold company_main, migrateCompanies, finally, try_catch, bind.
  rewrite Hs. rewrite console_log_run. unfold ret.
  unfold disconnect.
  rewrite io_answers by exact Hf.
  rewrite io_answers by exact Hf.
  destruct w'; simpl. unfold set_out. simpl.
  now rewrite <- app_assoc.
Qed.

Lemma seeding_failure_exits_zero_witness :
  fst (company_main no_json unreachable_world) = 0%Z
  /\ out (snd (company_main no_json unreachable_world))
     = ["Error ensuring company statuses:"; "Migration failed:";
        "Migration script completed successfully"].
Proof.
  rewrite (@seeding_failure_exits_zero unit no_json unreachable_world
             (set_out ["Error ensuring company statuses:"]
                (quiet_world no_source no_rows tt))
             connection_lost eq_refl eq_refl).
  split; reflexivity.
Defined.

(** ** The statistics ledger *)

Section LedgerFacts.
Context {F : Type}.
Abbreviation ST := (Ledger.t F).

Lemma keeps_ret {A} (a : A) : keeps (F:=F) (ret a).
Proof. intros w. reflexivity. Qed.

Lemma keeps_throw {A} (e : JsError.t) : keeps (F:=F) (@throw ST A e).
Proof. intros w. reflexivity. Qed.

Lemma keeps_bind {A B} (m : M ST A) (k : A -> M ST B) :
  keeps m -> (forall a, keeps (k a)) -> keeps (bind m k).
Proof.
  intros Hm Hk w. unfold bind. specialize (Hm w).
  destruct (m w) as [[a|e] w1]; simpl in *.
  - now rewrite Hk.
  - exact Hm.
Qed.

Lemma keeps_try_catch {A} (m : M ST A) (h : JsError.t -> M ST A) :
  keeps m -> (forall e, keeps (h e)) -> keeps (try_catch m h).
Proof.
  intros Hm Hh w. unfold try_catch. specialize (Hm w).
  destruct (m w) as [[a|e] w1]; simpl in *.
  - exact Hm.
  - now rewrite Hh.
Qed.

Lemma keeps_gets {A} (f : World ST -> A) : keeps (F:=F) (gets f).
Proof. intros w. reflexivity. Qed.

Lemma keeps_io : keeps (F:=F) io.
Proof. intros w. unfold io. destruct (faults w) as [|[e|] fs]; reflexivity. Qed.

Lemma keeps_write_target (f : Target.t -> Target.t) : keeps (F:=F) (write_target f).
Proof. intros w. reflexivity. Qed.

Lemma keeps_console_log (line : string) : keeps (F:=F) (console_log line).
Proof. intros w. reflexivity. Qed.

Lemma keeps_random_base36 : keeps (F:=F) random_base36.
Proof. intros w. unfold random_base36. destruct (randoms w); reflexivity. Qed.

Lemma keeps_generated_id : keeps (F:=F) generated_id.
Proof. intros w. unfold generated_id. destruct (uuids w); reflexivity. Qed.

Lemma keeps_inc_byId : keeps (F:=F) inc_byId.
Proof. intros w. reflexivity. Qed.

Lemma keeps_inc_byDomain : keeps (F:=F) inc_byDomain.
Proof. intros w. reflexivity. Qed.

Lemma keeps_store_result (line : string) : keeps (F:=F) (store_result line).
Proof.
  intros w. unfold store_result, modify. simpl.
  destruct (Js.startsWith "Success" line); [reflexivity|].
  destruct (Js.startsWith "Duplicate" line); reflexivity.
Qed.

End LedgerFacts.

Create HintDb ledger.
#[export] Hint Resolve keeps_ret keeps_throw keeps_gets keeps_io
  keeps_write_target keeps_console_log keeps_random_base36 keeps_generated_id
  keeps_inc_byId keeps_inc_byDomain keeps_store_result : ledger.

(** Walks through a computation built from the monad's combinators. *)
Ltac keeps_walk :=
  repeat first
    [ apply keeps_bind; [|intros]
    | apply keeps_try_catch; [|intros]
    | solve [auto with ledger]
    | match goal with
      | |- keeps (match ?x with _ => _ end) => destruct x
      | |- keeps (let _ := _ in _) => cbv zeta
      end ].

Section StoreKeepsCounts.
Context {F : Type}.
Abbreviation ST := (Ledger.t F).

Lemma keeps_read_target {A} (f : Target.t -> A) : keeps (F:=F) (@read_target ST A f).
Proof. unfold read_target. keeps_walk. Qed.

Lemma keeps_read_source {A} (f : Source.t -> A) : keeps (F:=F) (@read_source ST A f).
Proof. unfold read_source. keeps_walk. Qed.

Lemma keeps_new_Date : keeps (F:=F) (@new_Date ST).
Proof. unfold new_Date. keeps_walk. Qed.

Lemma keeps_company_findFirst p : keeps (F:=F) (@company_findFirst ST p).
Proof. unfold company_findFirst. apply keeps_read_target. Qed.

Lemma keeps_old_company_domain id : keeps (F:=F) (@old_company_domain ST id).
Proof. unfold old_company_domain. apply keeps_read_source. Qed.

Lemma keeps_jobRole_findFirst t : keeps (F:=F) (@jobRole_findFirst ST t).
Proof. unfold jobRole_findFirst. apply keeps_read_target. Qed.

Lemma keeps_jobRole_create a b c d e : keeps (F:=F) (@jobRole_create ST a b c d e).
Proof. unfold jobRole_create. keeps_walk. Qed.

Lemma keeps_position_findUnique id : keeps (F:=F) (@position_findUnique ST id).
Proof. unfold position_findUnique. apply keeps_read_target. Qed.

Lemma keeps_position_create row : keeps (F:=F) (@position_create ST row).
Proof. unfold position_create. keeps_walk. Qed.

Lemma keeps_emailStatus_findFirst v : keeps (F:=F) (@emailStatus_findFirst ST v).
Proof. unfold emailStatus_findFirst. apply keeps_read_target. Qed.

Lemma keeps_emailStatus_create row : keeps (F:=F) (@emailStatus_create ST row).
Proof. unfold emailStatus_create. keeps_walk. Qed.

Lemma keeps_contact_findUnique id : keeps (F:=F) (@contact_findUnique ST id).
Proof. unfold contact_findUnique. apply keeps_read_target. Qed.

Lemma keeps_contact_findFirst_email e id :
  keeps (F:=F) (@contact_findFirst_email ST e id).
Proof. unfold contact_findFirst_email. apply keeps_read_target. Qed.

Lemma keeps_contact_create row : keeps (F:=F) (@contact_create ST row).
Proof. unfold contact_create. keeps_walk. Qed.

End StoreKeepsCounts.

#[export] Hint Resolve keeps_read_target keeps_read_source keeps_new_Date
  keeps_company_findFirst keeps_old_company_domain keeps_jobRole_findFirst
  keeps_jobRole_create keeps_position_findUnique keeps_position_create
  keeps_emailStatus_findFirst keeps_emailStatus_create keeps_contact_findUnique
  keeps_contact_findFirst_email keeps_contact_create : ledger.

Lemma keeps_findCompany {F} (oldCompanyId : option string) :
  keeps (@findCompany F oldCompanyId).
Proof.
  unfold findCompany, company_findUnique_id, company_findUnique_domain.
  keeps_walk.
Qed.

Lemma keeps_findOrCreateJobRole h title description :
  keeps (findOrCreateJobRole h title description).
Proof. unfold findOrCreateJobRole. keeps_walk. Qed.

Lemma keeps_findOrCreateEmailStatus status :
  keeps (findOrCreateEmailStatus status).
Proof. unfold findOrCreateEmailStatus. keeps_walk. Qed.

Lemma keeps_unique_contact_email email id :
  keeps (unique_contact_email email id).
Proof. unfold unique_contact_email. keeps_walk. Qed.

#[export] Hint Resolve keeps_findCompany keeps_findOrCreateJobRole
  keeps_findOrCreateEmailStatus keeps_unique_contact_email : ledger.

Section Settling.
Context {F : Type} (categories : list (F -> F)).
Abbreviation ST := (Ledger.t F).

Lemma settles_keep_bind {A B} (final : B -> bool) (m : M ST A)
    (k : A -> M ST B) :
  keeps m -> (forall a, settles categories final (k a)) ->
  settles categories final (bind m k).
Proof.
  intros Hm Hk w. unfold bind. specialize (Hm w).
  destruct (m w) as [[a|e] w1]; simpl in Hm; [|exact Hm].
  specialize (Hk a w1). rewrite Hm in Hk. exact Hk.
Qed.

Lemma settles_try_catch {A} (final : A -> bool) (m : M ST A)
    (h : JsError.t -> M ST A) :
  settles categories final m -> (forall e, settles categories final (h e)) ->
  settles categories final (try_catch m h).
Proof.
  intros Hm Hh w. unfold try_catch. specialize (Hm w).
  destruct (m w) as [[a|e] w1]; [exact Hm|].
  specialize (Hh e w1). rewrite Hm in Hh. exact Hh.
Qed.

Lemma settles_throw {A} (final : A -> bool) (e : JsError.t) :
  settles categories final (@throw ST A e).
Proof. intros w. reflexivity. Qed.

Lemma settles_ret_open {A} (final : A -> bool) (a : A) :
  final a = false -> settles categories final (@ret ST A a).
Proof. intros H w. simpl. now rewrite H. Qed.

Lemma settles_success {A} (final : A -> bool) (a : A) :
  final a = true -> settles categories final (inc_successful ;; ret a).
Proof.
  intros H w. simpl. rewrite H. unfold counts, ledger. simpl.
  apply entered_success.
Qed.

Lemma settles_duplicate {A} (final : A -> bool) (a : A) :
  final a = true -> settles categories final (inc_duplicates ;; ret a).
Proof.
  intros H w. simpl. rewrite H. unfold counts, ledger. simpl.
  apply entered_duplicate.
Qed.

Lemma settles_failure {A} (final : A -> bool) (category : F -> F) (a : A) :
  In category categories -> final a = true ->
  settles categories final (inc_failed ;; inc_failure category ;; ret a).
Proof.
  intros Hc H w. simpl. rewrite H. unfold counts, ledger. simpl.
  now apply entered_failure.
Qed.

(** The early exit of the migrators: a line produced by the existence
    check is the result, otherwise the rest of the record runs. *)
Lemma settles_after_early (m : M ST (option string)) (rest : M ST string) :
  settles categories is_some m -> settles categories always rest ->
  settles categories always
    (bind m (fun early =>
       match early with Some line => ret line | None => rest end)).
Proof.
  intros Hm Hr w. unfold bind. specialize (Hm w).
  destruct (m w) as [[[line|]|e] w1]; simpl in *; [exact Hm| |exact Hm].
  specialize (Hr w1). rewrite Hm in Hr. exact Hr.
Qed.

End Settling.

Ltac settle_walk :=
  repeat first
    [ apply settles_success; reflexivity
    | apply settles_duplicate; reflexivity
    | apply settles_failure; [simpl; tauto | reflexivity]
    | apply settles_throw
    | apply settles_ret_open; reflexivity
    | apply settles_try_catch; [|intros]
    | apply settles_after_early
    | apply settles_keep_bind; [solve [auto with ledger] | intros]
    | match goal with
      | |- settles _ _ (match ?x with _ => _ end) => destruct x
      | |- settles _ _ (let _ := _ in _) => cbv zeta
      end ].

Lemma migratePosition_settles h (oldPosition : OldPosition.t) :
  exists body handler,
    migratePosition h oldPosition = (inc_total ;; try_catch body handler)
    /\ settles position_categories always body
    /\ (forall e, settles position_categories always (handler e))
    /\ (forall e w, exists line w', handler e w = (Ok line, w')).
Proof.
  eexists. eexists. split; [reflexivity|]. split; [|split].
  - settle_walk.
  - intros e. settle_walk.
  - intros e w. eexists. eexists. reflexivity.
Qed.

Lemma migrateContact_settles (oldContact : OldContact.t) :
  exists body handler,
    migrateContact oldContact = (inc_total ;; try_catch body handler)
    /\ settles contact_categories always body
    /\ (forall e, settles contact_categories always (handler e))
    /\ (forall e w, exists line w', handler e w = (Ok line, w')).
Proof.
  eexists. eexists. split; [reflexivity|]. split; [|split].
  - settle_walk.
  - intros e. settle_walk.
  - intros e w.
    destruct (has_code "P2002" e && target_includes "email" e);
      [|destruct (has_code "P2000" e)]; eexists; eexists; reflexivity.
Qed.

Section Recording.
Context {F : Type} (categories : list (F -> F)).
Abbreviation ST := (Ledger.t F).

Lemma entered_after_total (s s' : MigrationStats.t F) :
  entered categories
    (MigrationStats.total s + 1, MigrationStats.successful s,
     MigrationStats.duplicates s, MigrationStats.failed s,
     MigrationStats.failures s)%N (counts s') ->
  recorded categories s s'.
Proof.
  intros H. inversion H; subst.
  - apply recorded_success. unfold counts. congruence.
  - apply recorded_duplicate. unfold counts. congruence.
  - eapply recorded_failure; [eassumption | unfold counts; congruence].
Qed.

(** A record function of the shape [stats.total++; try {...} catch {...}]
    whose handler returns a line enters every record once and returns. *)
Lemma record_function_records (m body : M ST string)
    (handler : JsError.t -> M ST string) :
  m = (inc_total ;; try_catch body handler) ->
  settles categories always body ->
  (forall e, settles categories always (handler e)) ->
  (forall e w, exists line w', handler e w = (Ok line, w')) ->
  forall w,
    (exists line, fst (m w) = Ok line)
    /\ recorded categories (ledger w) (ledger (snd (m w))).
Proof.
  intros -> Hb Hh Hr w.
  destruct (inc_total w) as [r0 w0] eqn:E0.
  assert (C0 : counts (ledger w0)
               = (MigrationStats.total (ledger w) + 1,
                  MigrationStats.successful (ledger w),
                  MigrationStats.duplicates (ledger w),
                  MigrationStats.failed (ledger w),
                  MigrationStats.failures (ledger w))%N)
    by (inversion E0; reflexivity).
  assert (E : (inc_total ;; try_catch body handler) w
              = try_catch body handler w0)
    by (unfold bind; rewrite E0; inversion E0; reflexivity).
  rewrite E. clear E E0. unfold try_catch. specialize (Hb w0).
  destruct (body w0) as [[line|e] w1]; simpl in Hb.
  - split; [now exists line|]. simpl.
    apply entered_after_total. now rewrite <- C0.
  - destruct (Hr e w1) as [line [w2 E]]. specialize (Hh e w1).
    rewrite E in *. simpl in Hh. split; [now exists line|]. simpl.
    apply entered_after_total. rewrite <- C0, <- Hb. exact Hh.
Qed.

Lemma recorded_balanced (s s' : MigrationStats.t F) :
  recorded categories s s' -> balanced s -> balanced s'.
Proof.
  unfold balanced, counts.
  intros [H|H|category Hc H] B; inversion H; lia.
Qed.

Lemma steady_keeps {A} (m : M ST A) : keeps m -> steady m.
Proof.
  intros H w. specialize (H w). unfold balanced, counts in *.
  inversion H. lia.
Qed.

Lemma steady_bind {A B} (m : M ST A) (k : A -> M ST B) :
  steady m -> (forall a, steady (k a)) -> steady (bind m k).
Proof.
  intros Hm Hk w Bw. unfold bind. specialize (Hm w Bw).
  destruct (m w) as [[a|e] w1]; simpl in *; [now apply Hk | exact Hm].
Qed.

Lemma steady_try_catch {A} (m : M ST A) (h : JsError.t -> M ST A) :
  steady m -> (forall e, steady (h e)) -> steady (try_catch m h).
Proof.
  intros Hm Hh w Bw. unfold try_catch. specialize (Hm w Bw).
  destruct (m w) as [[a|e] w1]; simpl in *; [exact Hm | now apply Hh].
Qed.

Lemma steady_for_of {A} (xs : list A) (body : A -> M ST unit) :
  (forall x, steady (body x)) -> steady (for_of xs body).
Proof.
  intros Hb. induction xs as [|x r IH]; simpl.
  - apply steady_keeps, keeps_ret.
  - apply steady_bind; [apply Hb | intros _; exact IH].
Qed.

Lemma reset_ledger_balanced (zero : F) (w : World ST) :
  balanced (ledger (snd (reset_ledger zero w))).
Proof. reflexivity. Qed.

End Recording.

Section PassKeepsBalance.
Context {F : Type}.
Abbreviation ST := (Ledger.t F).

(** A pass that starts by resetting the ledger ends with it balanced. *)
Lemma balanced_after_reset {A} (zero : F) (rest : M ST A)
    (handler : JsError.t -> M ST A) (w : World ST) :
  steady rest -> (forall e, steady (handler e)) ->
  balanced (ledger (snd (try_catch (reset_ledger zero ;; rest) handler w))).
Proof.
  intros Hr Hh.
  assert (E : try_catch (reset_ledger zero ;; rest) handler w
              = try_catch rest handler (snd (reset_ledger zero w)))
    by reflexivity.
  rewrite E. apply steady_try_catch; [exact Hr | exact Hh |].
  apply reset_ledger_balanced.
Qed.

End PassKeepsBalance.

Lemma migratePosition_records h (oldPosition : OldPosition.t) w :
  (exists line, fst (migratePosition h oldPosition w) = Ok line)
  /\ recorded position_categories (ledger w)
       (ledger (snd (migratePosition h oldPosition w))).
Proof.
  destruct (migratePosition_settles h oldPosition)
    as (body & handler & E & Hb & Hh & Hr).
  now apply (record_function_records E).
Qed.

Lemma migrateContact_records (oldContact : OldContact.t) w :
  (exists line, fst (migrateContact oldContact w) = Ok line)
  /\ recorded contact_categories (ledger w)
       (ledger (snd (migrateContact oldContact w))).
Proof.
  destruct (migrateContact_settles oldContact)
    as (body & handler & E & Hb & Hh & Hr).
  now apply (record_function_records E).
Qed.

Section PageLoopBalance.
Context {F R : Type} (rows : Source.t -> list R).
Variable migrate : R -> M (Ledger.t F) string.
Hypothesis migrate_steady : forall record, steady (migrate record).

Lemma steady_process_page page : steady (process_page migrate page).
Proof.
  apply steady_for_of. intros record. apply steady_bind.
  - apply migrate_steady.
  - intros line. apply steady_keeps. auto with ledger.
Qed.

Lemma steady_page_loop fuel batchSize skip total :
  steady (page_loop rows migrate fuel batchSize skip total).
Proof.
  revert skip. induction fuel as [|fuel IH]; intros skip; simpl.
  - apply steady_keeps. auto with ledger.
  - destruct (skip <? total); [|apply steady_keeps; auto with ledger].
    apply steady_bind; [apply steady_keeps; auto with ledger|].
    intros page. apply steady_bind; [apply steady_process_page|].
    intros _. apply IH.
Qed.

End PageLoopBalance.

Lemma steady_migratePosition h oldPosition : steady (migratePosition h oldPosition).
Proof.
  intros w B.
  exact (recorded_balanced (proj2 (migratePosition_records h oldPosition w)) B).
Qed.

Lemma steady_migrateContact oldContact : steady (migrateContact oldContact).
Proof.
  intros w B.
  exact (recorded_balanced (proj2 (migrateContact_records oldContact w)) B).
Qed.

Ltac steady_tail :=
  repeat first
    [ apply steady_bind; [|intros]
    | apply steady_keeps; solve [auto with ledger] ].


(** ** Reference Resolver *)

(** In a world whose stores answer, [findCompany] returns what the stores
    resolve and counts the strategy that resolved it. *)
Lemma findCompany_answers {F} (rawId : string) (w : World (Ledger.t F)) :
  faults w = [] ->
  Js.nonempty rawId = true ->
  findCompany (Some rawId) w
  = match resolved_by_id rawId (target w) with
    | Some c => (Ok (Some (select_ref c)), snd (inc_byId w))
    | None =>
        match resolved_by_domain rawId (source w) (target w) with
        | Some c => (Ok (Some (select_ref c)), snd (inc_byDomain w))
        | None => (Ok None, w)
        end
    end.
Proof.
  intros HF Hne. unfold findCompany. rewrite Hne.
  unfold resolved_by_id, resolved_by_domain, source_domain.
  unfold try_catch, bind, company_findUnique_id, company_findUnique_domain,
    company_findFirst, old_company_domain, ret.
  change (@inc_byId F) with
    (fun w0 : World (Ledger.t F) => (Ok tt, snd (inc_byId w0))).
  change (@inc_byDomain F) with
    (fun w0 : World (Ledger.t F) => (Ok tt, snd (inc_byDomain w0))).
  repeat first
    [ reflexivity
    | rewrite read_target_answers by exact HF
    | rewrite read_source_answers by exact HF
    | progress cbn [option_map negb andb]
    | match goal with
      | |- context [match normalizeUuid ?x with _ => _ end] =>
          destruct (normalizeUuid x)
      | |- context [match find ?p ?l with _ => _ end] => destruct (find p l)
      | |- context [Js.nonempty ?x] => destruct (Js.nonempty x)
      end ].
Qed.

Lemma or_filter_of_equals (normalizedDomain : string) (c : Company.t) :
  equals_insensitive normalizedDomain (Company.domain c) = true ->
  domain_or_filter normalizedDomain c = true.
Proof.
  intros H. unfold domain_or_filter.
  destruct (Js.startsWith "www." normalizedDomain); simpl; now rewrite H.
Qed.

Lemma or_filter_of_exact (normalizedDomain : string) (c : Company.t) :
  String.eqb (Company.domain c) normalizedDomain = true ->
  domain_or_filter normalizedDomain c = true.
Proof.
  intros H. apply or_filter_of_equals. apply String.eqb_eq in H.
  unfold equals_insensitive. rewrite H. apply String.eqb_refl.
Qed.




Lemma lead_status_precedence_witness :
  exists row,
    migrateOldLead stuck_lead Counts.zero
      (quiet_world no_source (Target.set_company [acme] no_rows) tt)
    = (Ok (Counts.success Counts.zero),
       quiet_world no_source
         (Target.set_lead [row] (Target.set_company [acme] no_rows)) tt)
    /\ Lead.status row = "converted_to_company".
Proof.
  destruct (@lead_status_precedence unit stuck_lead Counts.zero
              (quiet_world no_source (Target.set_company [acme] no_rows) tt)
              eq_refl eq_refl eq_refl)
    as (row & E & _ & S & _).
  exists row. split; [exact E | exact S].
Defined.

(** ** Frame properties of the record functions *)

Section Frames.
Context {ST : Type} (R : World ST -> World ST -> Prop).
Hypothesis R_refl : forall w, R w w.
Hypothesis R_trans : forall a b c, R a b -> R b c -> R a c.

Lemma respects_ret {A} (a : A) : respects R (ret a).
Proof. intros w. apply R_refl. Qed.

Lemma respects_throw {A} (e : JsError.t) : respects R (@throw ST A e).
Proof. intros w. apply R_refl. Qed.

Lemma respects_gets {A} (f : World ST -> A) : respects R (gets f).
Proof. intros w. apply R_refl. Qed.

Lemma respects_bind {A B} (m : M ST A) (k : A -> M ST B) :
  respects R m -> (forall a, respects R (k a)) -> respects R (bind m k).
Proof.
  intros Hm Hk w. unfold bind. specialize (Hm w).
  destruct (m w) as [[a|e] w1]; simpl in *; [|exact Hm].
  eapply R_trans; [exact Hm | apply Hk].
Qed.

Lemma respects_try_catch {A} (m : M ST A) (h : JsError.t -> M ST A) :
  respects R m -> (forall e, respects R (h e)) -> respects R (try_catch m h).
Proof.
  intros Hm Hh w. unfold try_catch. specialize (Hm w).
  destruct (m w) as [[a|e] w1]; simpl in *; [exact Hm|].
  eapply R_trans; [exact Hm | apply Hh].
Qed.

Lemma respects_for_of {A} (xs : list A) (body : A -> M ST unit) :
  (forall x, respects R (body x)) -> respects R (for_of xs body).
Proof.
  intros Hb. induction xs as [|x r IH]; simpl.
  - apply respects_ret.
  - apply respects_bind; [apply Hb | intros _; exact IH].
Qed.

End Frames.

Lemma stable_refl {F} (w : World (Ledger.t F)) : stable w w.
Proof.
  unfold stable. repeat split; try reflexivity; try (intros H; exact H);
    exists []; now rewrite app_nil_r.
Qed.

Lemma stable_trans {F} (a b c : World (Ledger.t F)) :
  stable a b -> stable b c -> stable a c.
Proof.
  unfold stable.
  intros (S1 & F1 & [p1 P1] & [c1 C1] & K1 & A1 & B1 & D1)
         (S2 & F2 & [p2 P2] & [c2 C2] & K2 & A2 & B2 & D2).
  repeat split; try congruence.
  - intros H. auto.
  - exists (p1 ++ p2)%list. rewrite P2, P1. now rewrite app_assoc.
  - exists (c1 ++ c2)%list. rewrite C2, C1. now rewrite app_assoc.
Qed.

Section StableSteps.
Context {F : Type}.
Abbreviation ST := (Ledger.t F).

Lemma stable_io : respects (@stable F) io.
Proof.
  intros w. unfold io.
  destruct (faults w) as [|[e|] fs] eqn:E; simpl;
    [apply stable_refl | |];
    (unfold stable; simpl; repeat split; try reflexivity;
     try (rewrite E; discriminate); exists []; now rewrite app_nil_r).
Qed.

Lemma stable_update_stats f : respects (@stable F) (update_stats f).
Proof.
  intros w. unfold stable; simpl. repeat split; try reflexivity;
    try (intros H; exact H); exists []; now rewrite app_nil_r.
Qed.

Lemma stable_random_base36 : respects (@stable F) random_base36.
Proof.
  intros w. unfold random_base36. destruct (randoms w); simpl;
    [apply stable_refl|].
  unfold stable; simpl. repeat split; try reflexivity;
    try (intros H; exact H); exists []; now rewrite app_nil_r.
Qed.

Lemma stable_generated_id : respects (@stable F) generated_id.
Proof.
  intros w. unfold generated_id. destruct (uuids w); simpl;
    [apply stable_refl|].
  unfold stable; simpl. repeat split; try reflexivity;
    try (intros H; exact H); exists []; now rewrite app_nil_r.
Qed.

Lemma stable_console_log line : respects (@stable F) (console_log line).
Proof.
  intros w. unfold stable; simpl. repeat split; try reflexivity;
    try (intros H; exact H); exists []; now rewrite app_nil_r.
Qed.

(** Writes to the tables outside [position], [contact] and [company]. *)
Lemma stable_write_jobRole g :
  respects (@stable F)
    (write_target (fun d => Target.set_jobRole (g d) d)).
Proof.
  intros w. unfold stable; simpl. repeat split; try reflexivity;
    try (intros H; exact H); exists []; now rewrite app_nil_r.
Qed.

Lemma stable_write_contactEmailStatus g :
  respects (@stable F)
    (write_target (fun d => Target.set_contactEmailStatus (g d) d)).
Proof.
  intros w. unfold stable; simpl. repeat split; try reflexivity;
    try (intros H; exact H); exists []; now rewrite app_nil_r.
Qed.

Lemma stable_position_create row : respects (@stable F) (position_create row).
Proof.
  unfold position_create.
  apply (respects_bind (@stable_trans F)); [apply stable_io | intros _].
  intros w. unfold bind, gets.
  destruct (existsb _ _); simpl; [apply stable_refl|].
  unfold stable; simpl. repeat split; try reflexivity;
    try (intros H; exact H); [exists [row] | exists []];
    [reflexivity | now rewrite app_nil_r].
Qed.

Lemma stable_contact_create row : respects (@stable F) (contact_create row).
Proof.
  unfold contact_create.
  apply (respects_bind (@stable_trans F)); [apply stable_io | intros _].
  intros w. unfold bind, gets.
  destruct (existsb _ _); simpl; [apply stable_refl|].
  destruct (email_taken row _); simpl; [apply stable_refl|].
  unfold stable; simpl. repeat split; try reflexivity;
    try (intros H; exact H); [exists [] | exists [row]];
    [now rewrite app_nil_r | reflexivity].
Qed.

End StableSteps.

Create HintDb frames.
#[export] Hint Resolve stable_io stable_update_stats stable_random_base36
  stable_generated_id stable_console_log stable_write_jobRole
  stable_write_contactEmailStatus stable_position_create
  stable_contact_create : frames.
#[export] Hint Extern 1 (respects stable (ret _)) =>
  apply (respects_ret _ stable_refl) : frames.
#[export] Hint Extern 1 (respects stable (throw _)) =>
  apply (respects_throw _ stable_refl) : frames.
#[export] Hint Extern 1 (respects stable (gets _)) =>
  apply (respects_gets _ stable_refl) : frames.

Ltac stable_walk :=
  repeat first
    [ solve [auto with frames]
    | apply (respects_bind (@stable_trans _)); [|intros]
    | apply (respects_try_catch (@stable_trans _)); [|intros]
    | match goal with
      | |- respects _ (match ?x with _ => _ end) => destruct x
      | |- respects _ (let _ := _ in _) => cbv zeta
      end ].

Lemma stable_findCompany {F} oldCompanyId :
  respects stable (@findCompany F oldCompanyId).
Proof.
  unfold findCompany, company_findUnique_id, company_findUnique_domain,
    company_findFirst, old_company_domain, read_target, read_source,
    inc_byId, inc_byDomain, update_matches.
  stable_walk.
Qed.

Lemma stable_findOrCreateJobRole h title description :
  respects stable (findOrCreateJobRole h title description).
Proof.
  unfold findOrCreateJobRole, jobRole_findFirst, jobRole_create, read_target.
  stable_walk.
Qed.

Lemma stable_findOrCreateEmailStatus status :
  respects stable (findOrCreateEmailStatus status).
Proof.
  unfold findOrCreateEmailStatus, emailStatus_findFirst, emailStatus_create,
    read_target.
  stable_walk.
Qed.

Lemma stable_unique_contact_email email id :
  respects stable (unique_contact_email email id).
Proof.
  unfold unique_contact_email, contact_findFirst_email, read_target.
  stable_walk.
Qed.

#[export] Hint Resolve stable_findCompany stable_findOrCreateJobRole
  stable_findOrCreateEmailStatus stable_unique_contact_email : frames.

Lemma stable_migratePosition h oldPosition :
  respects stable (migratePosition h oldPosition).
Proof.
  unfold migratePosition, position_findUnique, read_target, new_Date,
    inc_total, inc_failed, inc_failure, inc_duplicates, inc_successful.
  stable_walk.
Qed.

Lemma stable_migrateContact oldContact :
  respects stable (migrateContact oldContact).
Proof.
  unfold migrateContact, contact_findUnique, read_target, new_Date,
    inc_total, inc_failed, inc_failure, inc_duplicates, inc_successful.
  stable_walk.
Qed.

(** ** A record that is already in the target store *)

Lemma faults_after_total {F} (w : World (Ledger.t F)) :
  faults (snd (inc_total w)) = faults w.
Proof. reflexivity. Qed.

Lemma target_after_total {F} (w : World (Ledger.t F)) :
  target (snd (inc_total w)) = target w.
Proof. reflexivity. Qed.

Lemma migratePosition_existing h (oldPosition : OldPosition.t)
    (normalizedId : string) (x : Position.t) w :
  faults w = [] ->
  normalizeUuid (Some (OldPosition.id oldPosition)) = Some normalizedId ->
  find (fun p => String.eqb (Position.id p) normalizedId)
       (Target.position (target w)) = Some x ->
  migratePosition h oldPosition w
  = (Ok (duplicate_position_line normalizedId),
     snd (inc_duplicates (snd (inc_total w)))).
Proof.
  intros HF Hn Hx. unfold migratePosition. rewrite Hn.
  unfold bind at 1.
  change (inc_total w) with (Ok tt, snd (inc_total w)). cbv iota.
  unfold try_catch at 1. unfold bind at 1. unfold try_catch at 1.
  unfold bind at 1. unfold position_findUnique.
  rewrite read_target_answers by (rewrite faults_after_total; exact HF).
  rewrite target_after_total, Hx. reflexivity.
Qed.

Lemma migrateContact_existing (oldContact : OldContact.t)
    (normalizedId : string) (x : Contact.t) w :
  faults w = [] ->
  normalizeUuid (Some (OldContact.id oldContact)) = Some normalizedId ->
  find (fun c => String.eqb (Contact.id c) normalizedId)
       (Target.contact (target w)) = Some x ->
  migrateContact oldContact w
  = (Ok (duplicate_contact_line normalizedId),
     snd (inc_duplicates (snd (inc_total w)))).
Proof.
  intros HF Hn Hx. unfold migrateContact. rewrite Hn.
  unfold bind at 1.
  change (inc_total w) with (Ok tt, snd (inc_total w)). cbv iota.
  unfold try_catch at 1. unfold bind at 1. unfold try_catch at 1.
  unfold bind at 1. unfold contact_findUnique.
  rewrite read_target_answers by (rewrite faults_after_total; exact HF).
  rewrite target_after_total, Hx. reflexivity.
Qed.

(** ** A record that was migrated *)

Lemma position_create_ok {ST} (row : Position.t) (w w' : World ST) :
  position_create row w = (Ok tt, w') ->
  existsb (fun p => String.eqb (Position.id p) (Position.id row))
          (Target.position (target w')) = true.
Proof.
  unfold position_create, bind, io, gets, throw, write_target, modify.
  destruct (faults w) as [|[e|] fs]; simpl;
    try discriminate;
    (destruct (existsb _ (Target.position (target w))); [discriminate|];
     intros H; inversion H; simpl;
     rewrite existsb_app; simpl; rewrite String.eqb_refl;
     now rewrite orb_true_r).
Qed.

(** Destructs, in hypothesis [H], a call whose result decides the run. *)
Ltac crack H :=
  match type of H with
  | context [match ?x with _ => _ end] =>
      lazymatch x with
      | context [match _ with _ => _ end] => fail
      | _ => destruct x eqn:?
      end
  end.

Ltac unfold_record_steps H :=
  unfold bind, try_catch, ret, throw, inc_total, inc_failed, inc_failure,
    inc_duplicates, inc_successful, update_stats, modify, new_Date, gets in H;
  cbv beta iota in H.

(** A [Success] line of [migratePosition] means the row was created. *)
Lemma migratePosition_success h (oldPosition : OldPosition.t) w line w1 :
  migratePosition h oldPosition w = (Ok line, w1) ->
  Js.startsWith "Success" line = true ->
  exists normalizedId,
    normalizeUuid (Some (OldPosition.id oldPosition)) = Some normalizedId
    /\ line = success_position_line normalizedId oldPosition
    /\ existsb (fun p => String.eqb (Position.id p) normalizedId)
               (Target.position (target w1)) = true.
Proof.
  intros H S. unfold migratePosition in H.
  destruct (normalizeUuid (Some (OldPosition.id oldPosition)))
    as [normalizedId|] eqn:En.
  - exists normalizedId. split; [reflexivity|].
    unfold_record_steps H.
    repeat (crack H; cbv beta iota in H).
    all: try (inversion H; subst; simpl in S; discriminate).
    inversion H; subst. split; [reflexivity|].
    match goal with
    | E : position_create _ _ = (Ok ?u, _) |- _ =>
        destruct u; apply position_create_ok in E; exact E
    end.
  - unfold_record_steps H.
    repeat (crack H; cbv beta iota in H).
    all: inversion H; subst; simpl in S; discriminate.
Qed.

Lemma contact_create_ok {ST} (row : Contact.t) (w w' : World ST) :
  contact_create row w = (Ok tt, w') ->
  Target.contact (target w') = (Target.contact (target w) ++ [row])%list.
Proof.
  unfold contact_create, bind, io, gets, throw, write_target, modify.
  destruct (faults w) as [|[e|] fs]; simpl;
    try discriminate;
    (destruct (existsb _ (Target.contact (target w))); [discriminate|];
     destruct (email_taken row (Target.contact (target w))); [discriminate|];
     intros H; inversion H; reflexivity).
Qed.

Lemma existsb_last {A} (p : A -> bool) (l : list A) (x : A) :
  p x = true -> existsb p (l ++ [x]) = true.
Proof.
  intros H. rewrite existsb_app. simpl. rewrite H. now rewrite orb_true_r.
Qed.

(** A [Success] line of [migrateContact] means the row was created. *)
Lemma migrateContact_success (oldContact : OldContact.t) w line w1 :
  migrateContact oldContact w = (Ok line, w1) ->
  Js.startsWith "Success" line = true ->
  exists normalizedId,
    normalizeUuid (Some (OldContact.id oldContact)) = Some normalizedId
    /\ line = success_contact_line normalizedId oldContact
    /\ existsb (fun c => String.eqb (Contact.id c) normalizedId)
               (Target.contact (target w1)) = true.
Proof.
  intros H S. unfold migrateContact in H.
  destruct (normalizeUuid (Some (OldContact.id oldContact)))
    as [normalizedId|] eqn:En.
  - exists normalizedId. split; [reflexivity|].
    unfold_record_steps H.
    repeat (crack H; cbv beta iota in H).
    all: try (inversion H; subst; simpl in S; discriminate).
    inversion H; subst. split; [reflexivity|].
    match goal with
    | E : contact_create _ _ = (Ok ?u, _) |- _ =>
        destruct u; apply contact_create_ok in E; simpl; rewrite E
    end.
    apply existsb_last. apply String.eqb_refl.
  - unfold_record_steps H.
    repeat (crack H; cbv beta iota in H).
    all: inversion H; subst; simpl in S; discriminate.
Qed.

(** ** Re-running the company step *)

Lemma upserted_find_domain (row : Company.t) (rows : list Company.t) :
  upserted row rows ->
  find (fun c => String.eqb (Company.domain c) (Company.domain row)) rows
  = Some row.
Proof.
  intros [Hall Hin]. induction rows as [|c rows IH]; [contradiction|].
  inversion Hall as [|? ? Hc Hrest]; subst. simpl.
  destruct (String.eqb (Company.id c) (Company.id row)) eqn:Eid.
  - subst c. now rewrite String.eqb_refl.
  - rewrite Hc. apply IH; [exact Hrest|].
    destruct Hin as [->|Hin]; [|exact Hin].
    rewrite String.eqb_refl in Eid. discriminate.
Qed.

Lemma upserted_domain_free (row : Company.t) (rows : list Company.t) :
  upserted row rows -> domain_taken row rows = false.
Proof.
  intros [Hall _]. unfold domain_taken.
  induction Hall as [|c rows Hc _ IH]; [reflexivity|]. simpl.
  rewrite IH, orb_false_r.
  destruct (String.eqb (Company.id c) (Company.id row)).
  - now rewrite andb_false_r.
  - now rewrite Hc.
Qed.

Lemma upserted_id_present (row : Company.t) (rows : list Company.t) :
  upserted row rows ->
  existsb (fun c => String.eqb (Company.id c) (Company.id row)) rows = true.
Proof.
  intros [_ Hin]. apply existsb_exists. exists row.
  split; [exact Hin | apply String.eqb_refl].
Qed.

Lemma upserted_replace (row : Company.t) (rows : list Company.t) :
  upserted row rows -> replace_company row rows = rows.
Proof.
  intros [Hall _]. unfold replace_company.
  induction Hall as [|c rows Hc _ IH]; [reflexivity|]. simpl.
  rewrite IH. destruct (String.eqb (Company.id c) (Company.id row));
    [now rewrite Hc | reflexivity].
Qed.

Lemma domain_free_forall (row : Company.t) (rows : list Company.t) :
  domain_taken row rows = false ->
  Forall (fun c =>
            if String.eqb (Company.id c) (Company.id row) then True
            else String.eqb (Company.domain c) (Company.domain row) = false)
         rows.
Proof.
  unfold domain_taken. induction rows as [|c rows IH]; [constructor|].
  simpl. intros H. apply orb_false_iff in H as [Hc Hr].
  constructor; [|now apply IH].
  destruct (String.eqb (Company.id c) (Company.id row)); [exact I|].
  now rewrite andb_true_r in Hc.
Qed.

Lemma upserted_after_update (row : Company.t) (rows : list Company.t) :
  domain_taken row rows = false ->
  existsb (fun c => String.eqb (Company.id c) (Company.id row)) rows = true ->
  upserted row (replace_company row rows).
Proof.
  intros Hd He. apply domain_free_forall in Hd. split.
  - clear He. unfold replace_company.
    induction Hd as [|c rows Hc _ IH]; [constructor|].
    simpl. constructor; [|exact IH].
    destruct (String.eqb (Company.id c) (Company.id row)) eqn:Eid.
    + now rewrite String.eqb_refl.
    + now rewrite Eid.
  - unfold replace_company. apply existsb_exists in He as [c [Hin Hc]].
    apply in_map_iff. exists c. now rewrite Hc.
Qed.

Lemma upserted_after_create (row : Company.t) (rows : list Company.t) :
  domain_taken row rows = false ->
  existsb (fun c => String.eqb (Company.id c) (Company.id row)) rows = false ->
  upserted row (rows ++ [row]).
Proof.
  intros Hd He. apply domain_free_forall in Hd. split.
  - apply Forall_app. split.
    + apply Forall_forall. intros c Hin.
      rewrite Forall_forall in Hd. specialize (Hd c Hin).
      destruct (String.eqb (Company.id c) (Company.id row)) eqn:Eid;
        [|exact Hd].
      exfalso. assert (X : existsb
                  (fun c => String.eqb (Company.id c) (Company.id row)) rows
                = true) by (apply existsb_exists; now exists c).
      congruence.
    + constructor; [|constructor]. now rewrite String.eqb_refl.
  - apply in_or_app. right. now left.
Qed.

Lemma company_upsert_ok {ST} (row : Company.t) (w w' : World ST) :
  company_upsert row w = (Ok tt, w') ->
  upserted row (Target.company (target w')).
Proof.
  unfold company_upsert, bind, io, gets, throw, write_target, modify.
  destruct (faults w) as [|[e|] fs]; simpl; try discriminate;
    (destruct (domain_taken row (Target.company (target w))) eqn:Hd;
       [discriminate|];
     destruct (existsb _ (Target.company (target w))) eqn:He;
     intros H; inversion H; simpl;
     [now apply upserted_after_update | now apply upserted_after_create]).
Qed.

Lemma set_company_same (t : Target.t) :
  Target.set_company (Target.company t) t = t.
Proof. now destruct t. Qed.

Lemma set_target_same {ST} (w : World ST) : set_target (target w) w = w.
Proof. now destruct w. Qed.

Lemma counts_success_not_existing (c : Counts.t) :
  Counts.existing c <> Counts.success c.
Proof.
  unfold Counts.existing, Counts.success. intros H. inversion H. lia.
Qed.

Lemma counts_success_not_error (c : Counts.t) :
  Counts.error c <> Counts.success c.
Proof.
  unfold Counts.error, Counts.success. intros H. inversion H. lia.
Qed.

(** A company step that counted a success leaves the row upserted. *)
Lemma migrateCompany_success {ST} JSON_parse (oldCompany : OldCompany.t)
    (c : Counts.t) (w w1 : World ST) :
  migrateCompany JSON_parse oldCompany c w = (Ok (Counts.success c), w1) ->
  upserted (transformCompany JSON_parse oldCompany)
    (Target.company (target w1)).
Proof.
  intros H. unfold migrateCompany in H.
  unfold bind, try_catch, ret in H. cbv beta iota zeta in H.
  repeat (crack H; cbv beta iota in H).
  all: try (exfalso;
            first [ apply (@counts_success_not_existing c); congruence
                  | apply (@counts_success_not_error c); congruence ]).
  all: inversion H; subst;
    match goal with
    | E : company_upsert _ _ = (Ok ?u, _) |- _ =>
        destruct u; now apply company_upsert_ok in E
    end.
Qed.

(** On a company table that holds the row, the step upserts it again:
    it counts a success once more and leaves the world as it is. *)
Lemma migrateCompany_again {ST} JSON_parse (oldCompany : OldCompany.t)
    (c : Counts.t) (w : World ST) :
  faults w = [] ->
  upserted (transformCompany JSON_parse oldCompany)
    (Target.company (target w)) ->
  migrateCompany JSON_parse oldCompany c w = (Ok (Counts.success c), w).
Proof.
  intros HF U.
  unfold migrateCompany, company_findUnique_domain, company_findFirst,
    company_upsert, try_catch, bind, gets, ret, write_target, modify.
  rewrite read_target_answers by exact HF.
  rewrite (upserted_find_domain U), String.eqb_refl.
  cbn [negb]. cbv beta iota. rewrite io_answers by exact HF. cbv beta iota.
  rewrite (upserted_domain_free U), (upserted_id_present U).
  rewrite (upserted_replace U).
  now rewrite set_company_same, set_target_same.
Qed.

(** ** The record functions in a world whose stores answer *)

Lemma calm_refl {ST} (w : World ST) : calm w w.
Proof. unfold calm. repeat split; reflexivity. Qed.

Lemma calm_trans {ST} (a b c : World ST) : calm a b -> calm b c -> calm a c.
Proof. unfold calm. intros H1 H2. repeat split; intuition congruence. Qed.

Lemma calm_update_stats {F} f (w : World (Ledger.t F)) :
  calm w (snd (update_stats f w)).
Proof. unfold calm. repeat split; reflexivity. Qed.

Lemma findCompany_resolved {F} (rawId : string) (co : Company.t)
    (w : World (Ledger.t F)) :
  faults w = [] ->
  Js.nonempty rawId = true ->
  resolved rawId (source w) (target w) = Some co ->
  exists w',
    findCompany (Some rawId) w = (Ok (Some (select_ref co)), w') /\ calm w w'.
Proof.
  intros HF Hne Hr. rewrite findCompany_answers by assumption.
  unfold resolved in Hr.
  destruct (resolved_by_id rawId (target w)) as [c|].
  - inversion Hr; subst. eexists. split; [reflexivity|].
    apply calm_update_stats.
  - rewrite Hr. eexists. split; [reflexivity|]. apply calm_update_stats.
Qed.

Lemma findCompany_unresolved {F} (rawId : string) (w : World (Ledger.t F)) :
  faults w = [] ->
  Js.nonempty rawId = true ->
  resolved rawId (source w) (target w) = None ->
  findCompany (Some rawId) w = (Ok None, w).
Proof.
  intros HF Hne Hr. rewrite findCompany_answers by assumption.
  unfold resolved in Hr.
  destruct (resolved_by_id rawId (target w)) as [c|]; [discriminate|].
  now rewrite Hr.
Qed.

Lemma findOrCreateEmailStatus_answers (status : option string)
    (w : World (Ledger.t ContactFailures.t)) :
  faults w = [] ->
  exists emailStatus w',
    findOrCreateEmailStatus status w = (Ok (Some emailStatus), w')
    /\ calm w w'.
Proof.
  intros HF.
  unfold findOrCreateEmailStatus, try_catch, bind at 1.
  unfold emailStatus_findFirst. rewrite read_target_answers by exact HF.
  destruct (find_status_value _ _) as [r|].
  - exists r, w. split; [reflexivity | apply calm_refl].
  - unfold bind, emailStatus_create, bind.
    rewrite io_answers by exact HF.
    eexists. eexists. split; [reflexivity|].
    unfold calm. repeat split; reflexivity.
Qed.

Lemma findOrCreateJobRole_answers h (title : string)
    (description : option string) (w : World (Ledger.t PositionFailures.t)) :
  faults w = [] ->
  exists jobRole w',
    findOrCreateJobRole h title description w = (Ok (Some jobRole), w')
    /\ calm w w'.
Proof.
  intros HF.
  unfold findOrCreateJobRole, try_catch, bind at 1.
  unfold jobRole_findFirst. rewrite read_target_answers by exact HF.
  destruct (find _ (Target.jobRole (target w))) as [j|].
  - exists j, w. split; [reflexivity | apply calm_refl].
  - unfold bind, jobRole_create, bind.
    rewrite io_answers by exact HF.
    unfold generated_id. destruct (uuids w) as [|u us];
      (eexists; eexists; split; [reflexivity|];
       unfold calm; repeat split; reflexivity).
Qed.

(** ** E-mail collisions of the contact migrator *)

Lemma unique_contact_email_collision (contactEmail normalizedId : string)
    (other : Contact.t) (w : World (Ledger.t ContactFailures.t)) :
  faults w = [] ->
  Js.nonempty contactEmail = true ->
  find (fun c => same_email contactEmail c
                 && negb (String.eqb (Contact.id c) normalizedId))
       (Target.contact (target w)) = Some other ->
  exists w',
    unique_contact_email (Some contactEmail) normalizedId w
    = (Ok (Some (disambiguate_email contactEmail (next_draw w))), w')
    /\ faults w' = [] /\ target w' = target w /\ clock w' = clock w.
Proof.
  intros HF Hne Hother. unfold unique_contact_email. rewrite Hne.
  unfold try_catch, bind at 1. unfold contact_findFirst_email.
  rewrite read_target_answers by exact HF. rewrite Hother.
  unfold bind, random_base36, next_draw, ret.
  destruct (randoms w) as [|r rs];
    (eexists; split; [reflexivity|]; repeat split; assumption).
Qed.

Lemma contact_create_answers {ST} (row : Contact.t) (w : World ST) :
  faults w = [] ->
  existsb (fun c => String.eqb (Contact.id c) (Contact.id row))
          (Target.contact (target w)) = false ->
  email_taken row (Target.contact (target w)) = false ->
  contact_create row w
  = (Ok tt,
     set_target
       (Target.set_contact (Target.contact (target w) ++ [row]) (target w)) w).
Proof.
  intros HF Hid Hem. unfold contact_create, bind, gets.
  rewrite io_answers by exact HF. now rewrite Hid, Hem.
Qed.

Lemma length_take (n : nat) (s : string) :
  String.length (Js.take n s) = Nat.min n (String.length s).
Proof.
  revert s. induction n as [|n IH]; intros [|c s]; simpl; try reflexivity.
  now rewrite IH.
Qed.

Lemma length_drop (n : nat) (s : string) :
  String.length (Js.drop n s) = String.length s - n.
Proof.
  revert s. induction n as [|n IH]; intros [|c s]; simpl; try reflexivity.
  apply IH.
Qed.

Lemma split_no_at (s : string) : no_at s -> Js.split "@" s = [s].
Proof.
  unfold no_at. induction s as [|c s IH]; simpl; [reflexivity|].
  intros H. apply andb_true_iff in H as [Hc Hs].
  apply negb_true_iff in Hc. rewrite Hc. now rewrite IH.
Qed.

Lemma split_one_at (local host : string) :
  no_at local -> no_at host ->
  Js.split "@" (local ++ "@" ++ host) = [local; host].
Proof.
  unfold no_at at 1. intros Hl Hh.
  induction local as [|c local IH]; simpl in *.
  - now rewrite split_no_at.
  - apply andb_true_iff in Hl as [Hc Hl].
    apply negb_true_iff in Hc. rewrite Hc. now rewrite IH.
Qed.

Lemma length_split (s : string) :
  length (Js.split "@" s) = S (count_at s).
Proof.
  induction s as [|c s IH]; simpl; [reflexivity|].
  destruct (Ascii.eqb c "@"); simpl.
  - now rewrite IH.
  - destruct (Js.split "@" s) as [|h t] eqn:E; simpl in *; [discriminate|].
    exact IH.
Qed.

(** The rewritten address: the suffix is characters 2 to 7 of the drawn
    rendering, it goes before the [@] of an address with exactly one [@],
    and at the end of any other address. *)
Lemma disambiguate_email_shape (contactEmail drawn : string) :
  String.length (Js.substring 2 8 drawn) <= 6
  /\ (8 <= String.length drawn -> String.length (Js.substring 2 8 drawn) = 6)
  /\ (forall local host,
        contactEmail = local ++ "@" ++ host -> no_at local -> no_at host ->
        disambiguate_email contactEmail drawn
        = local ++ "+" ++ Js.substring 2 8 drawn ++ "@" ++ host)
  /\ (count_at contactEmail <> 1 ->
      disambiguate_email contactEmail drawn
      = contactEmail ++ "+" ++ Js.substring 2 8 drawn).
Proof.
  unfold Js.substring. rewrite length_take, length_drop.
  split; [lia|]. split; [lia|]. split.
  - intros local host -> Hl Hh. unfold disambiguate_email.
    now rewrite split_one_at.
  - intros Hc. unfold disambiguate_email.
    pose proof (length_split contactEmail) as L.
    destruct (Js.split "@" contactEmail) as [|a [|b [|c t]]];
      try reflexivity.
    simpl in L. exfalso. apply Hc. lia.
Qed.

(** C10 (as stated, refuted): an empty e-mail is not null, yet the
    uniqueness block skips it, the write collides and the record fails as
    a duplicate e-mail; and a draw whose rendering is short (0.5 renders as
    ["0.i"]) gives a suffix of one character, not six. *)
Lemma colliding_email_can_fail_and_suffix_can_be_short :
  (OldContact.email
     (old_contact_with "22222222-2222-2222-2222-222222222222" (Some ""))
   <> None
   /\ map Contact.email (Target.contact (target (contact_world (Some "") [])))
      = [Some ""]
   /\ fst (migrateContact
             (old_contact_with "22222222-2222-2222-2222-222222222222" (Some ""))
             (contact_world (Some "") []))
      = Ok ("Failed: Duplicate email error for contact "
            ++ "22222222-2222-2222-2222-222222222222: "))
  /\ map Contact.email
       (Target.contact (target (snd
          (migrateContact
             (old_contact_with "22222222-2222-2222-2222-222222222222"
                (Some "ann@acme.test"))
             (contact_world (Some "ann@acme.test") ["0.i"])))))
     = [Some "ann@acme.test"; Some "ann+i@acme.test"].
Proof.
  split; [split; [discriminate | split; reflexivity] | reflexivity].
Qed.

(** C10 (amended): when a contact that passes the earlier stages (valid
    new identifier, company resolved) has a non-empty e-mail already held
    by another contact of the target store, the migrator neither fails nor
    skips it on that account: it writes the contact with a rewritten
    e-mail, provided the rewritten address is itself free.  The suffix is
    characters 2 to 7 of the base-36 rendering of a random draw: at most
    six characters, exactly six when the rendering has at least eight; it
    is inserted as [local+suffix@domain] when the e-mail has exactly one
    [@] and appended as [email+suffix] otherwise.  The written e-mail thus
    depends on the draw. *)
Theorem colliding_email_is_rewritten (oldContact : OldContact.t)
    (normalizedId rawId contactEmail : string) (co : Company.t)
    (other : Contact.t) (w : World (Ledger.t ContactFailures.t)) :
  faults w = [] ->
  normalizeUuid (Some (OldContact.id oldContact)) = Some normalizedId ->
  find (fun c => String.eqb (Contact.id c) normalizedId)
       (Target.contact (target w)) = None ->
  OldContact.companyId oldContact = Some rawId ->
  Js.nonempty rawId = true ->
  resolved rawId (source w) (target w) = Some co ->
  OldContact.email oldContact = Some contactEmail ->
  Js.nonempty contactEmail = true ->
  find (fun c => same_email contactEmail c
                 && negb (String.eqb (Contact.id c) normalizedId))
       (Target.contact (target w)) = Some other ->
  existsb (same_email (disambiguate_email contactEmail (next_draw w)))
          (Target.contact (target w)) = false ->
  exists row w1,
    migrateContact oldContact w
    = (Ok (success_contact_line normalizedId oldContact), w1)
    /\ Target.contact (target w1) = (Target.contact (target w) ++ [row])%list
    /\ Contact.id row = normalizedId
    /\ Contact.email row
       = Some (disambiguate_email contactEmail (next_draw w))
    /\ String.length (Js.substring 2 8 (next_draw w)) <= 6
    /\ (8 <= String.length (next_draw w) ->
        String.length (Js.substring 2 8 (next_draw w)) = 6)
    /\ (forall local host,
          contactEmail = local ++ "@" ++ host -> no_at local -> no_at host ->
          Contact.email row
          = Some (local ++ "+" ++ Js.substring 2 8 (next_draw w)
                  ++ "@" ++ host))
    /\ (count_at contactEmail <> 1 ->
        Contact.email row
        = Some (contactEmail ++ "+" ++ Js.substring 2 8 (next_draw w))).
Proof.
  intros HF Hn Hnew Hcid Hne Hres Hemail Hene Hother Hfree.
  set (w0 := snd (inc_total w)).
  assert (HF0 : faults w0 = []) by exact HF.
  destruct (@findCompany_resolved ContactFailures.t rawId co w0 HF0 Hne Hres)
    as (w2 & E2 & C2).
  assert (HF2 : faults w2 = []) by (destruct C2 as (_ & -> & _); exact HF0).
  destruct (@findOrCreateEmailStatus_answers
              (OldContact.email_status oldContact) w2 HF2)
    as (emailStatus & w3 & E3 & C3).
  assert (HF3 : faults w3 = []) by (destruct C3 as (_ & -> & _); exact HF2).
  assert (T3 : Target.contact (target w3) = Target.contact (target w)).
  { destruct C2 as (_ & _ & _ & _ & _ & _ & X2).
    destruct C3 as (_ & _ & _ & _ & _ & _ & X3).
    rewrite X3, X2. reflexivity. }
  assert (R3 : next_draw w3 = next_draw w).
  { unfold next_draw. destruct C2 as (_ & _ & R2 & _).
    destruct C3 as (_ & _ & R3 & _). now rewrite R3, R2. }
  assert (Hother3 :
    find (fun c => same_email contactEmail c
                   && negb (String.eqb (Contact.id c) normalizedId))
         (Target.contact (target w3)) = Some other) by now rewrite T3.
  destruct (@unique_contact_email_collision contactEmail normalizedId
              other w3 HF3 Hene Hother3)
    as (w4 & E4 & HF4 & T4 & K4).
  rewrite R3 in E4.
  set (row := newContactData oldContact normalizedId (select_ref co)
                emailStatus
                (Some (disambiguate_email contactEmail (next_draw w)))
                (clock w4)).
  assert (E5 : contact_create row w4
               = (Ok tt,
                  set_target
                    (Target.set_contact
                       (Target.contact (target w4) ++ [row]) (target w4)) w4)).
  { apply contact_create_answers; [exact HF4 | |].
    - rewrite T4, T3. apply find_none_existsb. exact Hnew.
    - unfold email_taken. simpl. rewrite T4, T3. exact Hfree. }
  exists row. eexists.
  split.
  - unfold migrateContact. rewrite Hn, Hcid, Hemail.
    unfold bind at 1. change (inc_total w) with (Ok tt, w0). cbv iota.
    unfold try_catch at 1. unfold bind at 1. unfold try_catch at 1.
    unfold bind at 1. unfold contact_findUnique.
    rewrite read_target_answers by exact HF0.
    change (target w0) with (target w). rewrite Hnew.
    unfold ret at 1. cbv iota beta.
    unfold bind at 1. rewrite E2. cbv iota.
    unfold bind at 1. rewrite E3. cbv iota.
    unfold bind at 1. rewrite E4. cbv iota.
    unfold bind at 1. unfold new_Date, gets. cbv iota beta.
    unfold bind at 1. fold row. rewrite E5. cbv iota.
    reflexivity.
  - simpl. rewrite T4, T3.
    split; [reflexivity|]. split; [reflexivity|]. split; [reflexivity|].
    destruct (disambiguate_email_shape contactEmail (next_draw w))
      as (S1 & S2 & S3 & S4).
    split; [exact S1|]. split; [exact S2|]. split.
    + intros local host El Hl Hh. simpl. now rewrite (S3 local host El Hl Hh).
    + intros Hc. simpl. now rewrite (S4 Hc).
Qed.

Lemma colliding_email_is_rewritten_witness :
  exists row w1,
    migrateContact
      (old_contact_with "22222222-2222-2222-2222-222222222222"
         (Some "ann@acme.test"))
      (contact_world (Some "ann@acme.test") ["0.4fzyo82mvyr"])
    = (Ok "Success: Migrated contact 22222222222222222222222222222222 - Ann Lee",
       w1)
    /\ Contact.email row = Some "ann+4fzyo8@acme.test".
Proof.
  destruct (@colliding_email_is_rewritten
              (old_contact_with "22222222-2222-2222-2222-222222222222"
                 (Some "ann@acme.test"))
              "22222222222222222222222222222222"
              "0627caad-6165-48ca-8c74-aac1d9783d92" "ann@acme.test"
              example_company
              (contact_with "11111111111111111111111111111111"
                 (Some "ann@acme.test"))
              (contact_world (Some "ann@acme.test") ["0.4fzyo82mvyr"])
              eq_refl eq_refl eq_refl eq_refl eq_refl eq_refl eq_refl eq_refl
              eq_refl eq_refl)
    as (row & w1 & E & _ & _ & Hrow & _).
  exists row, w1. split; [exact E | exact Hrow].
Defined.

(** ** The batch loop has fuel enough *)

Section BatchLoopFacts.
Context {ST A : Type} (body : A -> Counts.t -> M ST Counts.t).

Lemma for_counting_app (xs ys : list A) (c : Counts.t) (w : World ST) :
  for_counting body (xs ++ ys) c w
  = bind (for_counting body xs c) (for_counting body ys) w.
Proof.
  revert c w. induction xs as [|x xs IH]; intros c w; [reflexivity|].
  simpl. unfold bind.
  destruct (body x c w) as [[c'|e] w']; [|reflexivity].
  rewrite IH. reflexivity.
Qed.

(** With one unit of fuel per row the loop visits every row, in order. *)
Lemma batches_enough (xs : list A) (batchSize fuel i : nat) (c : Counts.t)
    (w : World ST) :
  0 < batchSize ->
  length xs <= i + fuel * batchSize ->
  batches body fuel batchSize i xs c w = for_counting body (skipn i xs) c w.
Proof.
  intros Hb. revert i c w. induction fuel as [|fuel IH]; intros i c w Hlen.
  - simpl in *. rewrite skipn_all2 by lia. reflexivity.
  - simpl. destruct (i <? length xs) eqn:E.
    + unfold slice. replace (i + batchSize - i) with batchSize by lia.
      rewrite <- (firstn_skipn batchSize (skipn i xs)) at 2.
      rewrite for_counting_app. unfold bind.
      destruct (for_counting body (firstn batchSize (skipn i xs)) c w)
        as [[c'|e] w']; [|reflexivity].
      rewrite IH by (simpl in Hlen; lia).
      rewrite skipn_skipn. now rewrite (Nat.add_comm batchSize i).
    + apply Nat.ltb_ge in E. rewrite skipn_all2 by lia. reflexivity.
Qed.

Lemma batches_all (xs : list A) (c : Counts.t) (w : World ST) :
  batches body (length xs) 50 0 xs c w = for_counting body xs c w.
Proof. rewrite batches_enough by lia. reflexivity. Qed.

End BatchLoopFacts.

(** ** Running a migration a second time *)


(** ** A whole pass, and the pass after it *)

Lemma bind_run {ST A B} (m : M ST A) (k : A -> M ST B) (w : World ST) :
  bind m k w
  = match m w with
    | (Ok a, w') => k a w'
    | (Throw e, w') => (Throw e, w')
    end.
Proof. reflexivity. Qed.

Lemma in_firstn {A} (n : nat) (l : list A) (x : A) :
  In x (firstn n l) -> In x l.
Proof.
  intros H. rewrite <- (firstn_skipn n l). apply in_or_app. now left.
Qed.

Lemma in_skipn {A} (n : nat) (l : list A) (x : A) :
  In x (skipn n l) -> In x l.
Proof.
  intros H. rewrite <- (firstn_skipn n l). apply in_or_app. now right.
Qed.

Lemma untouched_refl {ST} (w : World ST) : untouched w w.
Proof. unfold untouched. repeat split; auto. Qed.

Lemma untouched_trans {ST} (a b c : World ST) :
  untouched a b -> untouched b c -> untouched a c.
Proof.
  unfold untouched. intros (S1 & T1 & G1 & F1) (S2 & T2 & G2 & F2).
  repeat split; try congruence. auto.
Qed.

Lemma untouched_io {ST} : respects (@untouched ST) io.
Proof.
  intros w. unfold io. destruct (faults w) as [|[e|] fs] eqn:E; simpl;
    unfold untouched; simpl; repeat split; auto;
    rewrite E; discriminate.
Qed.

Lemma untouched_console_log {ST} line :
  respects (@untouched ST) (console_log line).
Proof. intros w. unfold untouched. simpl. repeat split; auto. Qed.

Lemma untouched_read_source {ST A} (f : Source.t -> A) :
  respects (@untouched ST) (read_source f).
Proof.
  unfold read_source.
  apply (respects_bind (@untouched_trans ST)); [apply untouched_io|].
  intros _. apply (respects_gets _ (@untouched_refl ST)).
Qed.

Lemma store_result_run {F} (line : string) (w : World (Ledger.t F)) :
  exists w',
    store_result line w = (Ok tt, w')
    /\ source w' = source w /\ target w' = target w /\ faults w' = faults w
    /\ Ledger.successResults (globals w')
       = (if Js.startsWith "Success" line
          then Ledger.successResults (globals w) ++ [line]
          else Ledger.successResults (globals w))%list
    /\ Ledger.duplicateResults (globals w')
       = (if Js.startsWith "Success" line
          then Ledger.duplicateResults (globals w)
          else if Js.startsWith "Duplicate" line
               then Ledger.duplicateResults (globals w) ++ [line]
               else Ledger.duplicateResults (globals w))%list.
Proof.
  eexists. split; [reflexivity|]. unfold store_result, modify. simpl.
  destruct (Js.startsWith "Success" line);
    [|destruct (Js.startsWith "Duplicate" line)];
    repeat split; reflexivity.
Qed.

Section PassFacts.
Context {F R : Type}.
Variable rows : Source.t -> list R.
Variable migrate : R -> M (Ledger.t F) string.
Variable key : R -> option string.
Variable known : string -> Target.t -> bool.
Variable success_line : string -> R -> string.
Variable duplicate_line : string -> string.

Hypothesis migrate_returns :
  forall record w, exists line, fst (migrate record w) = Ok line.
Hypothesis migrate_stable : forall record, respects stable (migrate record).
Hypothesis known_stable :
  forall normalizedId (w w' : World (Ledger.t F)),
    stable w w' ->
    known normalizedId (target w) = true ->
    known normalizedId (target w') = true.
Hypothesis success_known :
  forall record w line w1,
    migrate record w = (Ok line, w1) ->
    Js.startsWith "Success" line = true ->
    exists normalizedId,
      key record = Some normalizedId
      /\ line = success_line normalizedId record
      /\ known normalizedId (target w1) = true.
Hypothesis existing_skipped :
  forall record normalizedId w,
    faults w = [] ->
    key record = Some normalizedId ->
    known normalizedId (target w) = true ->
    exists w',
      migrate record w = (Ok (duplicate_line normalizedId), w')
      /\ target w' = target w.
Hypothesis duplicate_line_prefix :
  forall normalizedId,
    Js.startsWith "Success" (duplicate_line normalizedId) = false
    /\ Js.startsWith "Duplicate" (duplicate_line normalizedId) = true.

Abbreviation lines_known :=
  (migrated_lines_known (F:=F) rows key known success_line).
Abbreviation lasts := (lasting (F:=F) known).

(** *** First pass: every success line stands for a row of the target *)

Lemma lines_known_stable w w' :
  stable w w' -> lines_known w -> lines_known w'.
Proof.
  intros S I line Hin.
  pose proof S as (Hs & _ & _ & _ & _ & Ha & _).
  rewrite Ha in Hin. destruct (I line Hin) as (x & nid & Hx & Hk & Hl & Hn).
  exists x, nid. rewrite Hs. repeat split; try assumption.
  now apply (known_stable S).
Qed.

Lemma lines_known_untouched w w' :
  untouched w w' -> lines_known w -> lines_known w'.
Proof.
  intros (Hs & Ht & Hg & _) I line Hin.
  rewrite Hg in Hin. destruct (I line Hin) as (x & nid & Hx & Hk & Hl & Hn).
  exists x, nid. rewrite Hs, Ht. repeat split; assumption.
Qed.

Lemma lines_known_record record w :
  In record (rows (source w)) -> lines_known w ->
  lines_known (snd ((result <- migrate record ;; store_result result) w))
  /\ source (snd ((result <- migrate record ;; store_result result) w))
     = source w.
Proof.
  intros Hin I. rewrite bind_run.
  pose proof (migrate_stable record w) as S.
  destruct (migrate record w) as [[line|e] w1] eqn:E; simpl in S.
  - destruct (store_result_run line w1) as (w2 & E2 & Hs & Ht & _ & Ha & _).
    rewrite E2. simpl. pose proof S as (Hs1 & _).
    split; [|congruence].
    pose proof (lines_known_stable S I) as I1.
    intros l Hl. rewrite Ha in Hl.
    destruct (Js.startsWith "Success" line) eqn:P.
    + apply in_app_or in Hl as [Hl|[<-|[]]].
      * destruct (I1 l Hl) as (x & nid & Hx & Hk & Hline & Hn).
        exists x, nid. rewrite Hs, Ht. repeat split; assumption.
      * destruct (success_known E P) as (nid & Hk & Hline & Hn).
        exists record, nid. rewrite Hs, Ht, Hs1. repeat split; assumption.
    + destruct (I1 l Hl) as (x & nid & Hx & Hk & Hline & Hn).
      exists x, nid. rewrite Hs, Ht. repeat split; assumption.
  - simpl. pose proof S as (Hs1 & _). split; [|exact Hs1].
    now apply (lines_known_stable S).
Qed.

Lemma process_page_cons record page (w : World (Ledger.t F)) :
  process_page migrate (record :: page) w
  = bind (result <- migrate record ;; store_result result)
         (fun _ => process_page migrate page) w.
Proof. reflexivity. Qed.

Lemma lines_known_page page w :
  incl page (rows (source w)) -> lines_known w ->
  lines_known (snd (process_page migrate page w))
  /\ source (snd (process_page migrate page w)) = source w.
Proof.
  revert w. induction page as [|record page IH]; intros w Hincl I.
  - split; [exact I | reflexivity].
  - rewrite process_page_cons, bind_run.
    destruct (@lines_known_record record w) as [I1 S1];
      [apply Hincl; now left | exact I |].
    destruct ((result <- migrate record;; store_result result) w)
      as [[u|e] w1]; simpl in *.
    + destruct (IH w1) as [I2 S2];
        [rewrite S1; intros x Hx; apply Hincl; now right | exact I1 |].
      split; [exact I2 | now rewrite S2].
    + split; assumption.
Qed.

Lemma lines_known_page_loop fuel batchSize skip total w :
  lines_known w ->
  lines_known (snd (page_loop rows migrate fuel batchSize skip total w))
  /\ source (snd (page_loop rows migrate fuel batchSize skip total w))
     = source w.
Proof.
  revert skip w. induction fuel as [|fuel IH]; intros skip w I; simpl.
  - split; [exact I | reflexivity].
  - destruct (skip <? total); [|split; [exact I | reflexivity]].
    rewrite bind_run.
    pose proof (@untouched_read_source (Ledger.t F) _
                  (fun s => firstn batchSize (skipn skip (rows s))) w) as U.
    destruct (read_source _ w) as [[page|e] w1] eqn:E; simpl in U.
    + assert (Hpage : page = firstn batchSize (skipn skip (rows (source w)))).
      { unfold read_source, bind, gets, io in E.
        destruct (faults w) as [|[x|] fs]; inversion E; reflexivity. }
      pose proof U as (Hs & _).
      destruct (@lines_known_page page w1) as [I1 S1].
      * rewrite Hs, Hpage. intros x Hx.
        apply in_firstn in Hx. now apply in_skipn in Hx.
      * now apply (lines_known_untouched U).
      * rewrite bind_run.
        destruct (process_page migrate page w1) as [[u|e] w2]; simpl in *.
        -- destruct (IH (skip + batchSize) w2 I1) as [I2 S2].
           split; [exact I2 | now rewrite S2, S1].
        -- split; [exact I1 | now rewrite S1].
    + simpl. pose proof U as (Hs & _).
      split; [now apply (lines_known_untouched U) | exact Hs].
Qed.


(** *** Second pass: every known record is filed as a duplicate *)

Lemma lasting_refl w : lasts w w.
Proof. unfold lasting. repeat split; auto. apply incl_refl. Qed.

Lemma lasting_trans a b c : lasts a b -> lasts b c -> lasts a c.
Proof.
  unfold lasting. intros (S1 & F1 & K1 & D1) (S2 & F2 & K2 & D2).
  repeat split; try congruence; auto.
  eapply incl_tran; eassumption.
Qed.

Lemma lasting_stable w w' : stable w w' -> lasts w w'.
Proof.
  intros S. pose proof S as (Hs & Hf & _ & _ & _ & _ & _ & Hd).
  unfold lasting. repeat split; auto.
  - intros nid. now apply (known_stable S).
  - rewrite Hd. apply incl_refl.
Qed.

Lemma lasting_untouched w w' : untouched w w' -> lasts w w'.
Proof.
  intros (Hs & Ht & Hg & Hf). unfold lasting. repeat split; auto.
  - intros nid. now rewrite Ht.
  - rewrite Hg. apply incl_refl.
Qed.

Lemma lasting_record record w :
  exists w',
    (result <- migrate record ;; store_result result) w = (Ok tt, w')
    /\ lasts w w'.
Proof.
  rewrite bind_run. pose proof (migrate_stable record w) as S.
  destruct (migrate_returns record w) as [line E].
  destruct (migrate record w) as [r w1]. simpl in E, S. subst r.
  destruct (store_result_run line w1) as (w2 & E2 & Hs & Ht & Hf & _ & Hd).
  exists w2. split; [exact E2|].
  apply (lasting_trans (lasting_stable S)).
  unfold lasting. split; [congruence|]. split; [intros; congruence|].
  split; [intros nid; now rewrite Ht|].
  rewrite Hd. destruct (Js.startsWith "Success" line);
    [apply incl_refl|].
  destruct (Js.startsWith "Duplicate" line);
    [apply incl_appl|]; apply incl_refl.
Qed.

Lemma lasting_page page w :
  exists w', process_page migrate page w = (Ok tt, w') /\ lasts w w'.
Proof.
  revert w. induction page as [|record page IH]; intros w.
  - exists w. split; [reflexivity | apply lasting_refl].
  - rewrite process_page_cons, bind_run.
    destruct (lasting_record record w) as (w1 & E1 & L1). rewrite E1.
    destruct (IH w1) as (w2 & E2 & L2). exists w2.
    split; [exact E2 | exact (lasting_trans L1 L2)].
Qed.

Lemma lasting_page_loop fuel batchSize skip total w :
  lasts w (snd (page_loop rows migrate fuel batchSize skip total w)).
Proof.
  revert skip w. induction fuel as [|fuel IH]; intros skip w; simpl.
  - apply lasting_refl.
  - destruct (skip <? total); [|apply lasting_refl].
    rewrite bind_run.
    pose proof (@untouched_read_source (Ledger.t F) _
                  (fun s => firstn batchSize (skipn skip (rows s))) w) as U.
    destruct (read_source _ w) as [[page|e] w1]; simpl in U;
      [|now apply lasting_untouched].
    rewrite bind_run.
    destruct (lasting_page page w1) as (w2 & E2 & L2). rewrite E2.
    apply (lasting_trans (lasting_untouched U)).
    apply (lasting_trans L2). apply IH.
Qed.

Lemma record_duplicate record normalizedId w :
  faults w = [] ->
  key record = Some normalizedId ->
  known normalizedId (target w) = true ->
  In (duplicate_line normalizedId)
     (Ledger.duplicateResults
        (globals (snd ((result <- migrate record ;; store_result result) w)))).
Proof.
  intros HF Hk Hn. rewrite bind_run.
  destruct (@existing_skipped record normalizedId w HF Hk Hn) as (w1 & E & _).
  rewrite E.
  destruct (store_result_run (duplicate_line normalizedId) w1)
    as (w2 & E2 & _ & _ & _ & _ & Hd).
  rewrite E2. simpl. rewrite Hd.
  destruct (duplicate_line_prefix normalizedId) as [-> ->].
  apply in_or_app. right. now left.
Qed.

Lemma page_duplicates page record normalizedId w :
  faults w = [] ->
  In record page ->
  key record = Some normalizedId ->
  known normalizedId (target w) = true ->
  In (duplicate_line normalizedId)
     (Ledger.duplicateResults (globals (snd (process_page migrate page w)))).
Proof.
  revert w. induction page as [|x page IH]; intros w HF Hin Hk Hn;
    [contradiction|].
  rewrite process_page_cons, bind_run.
  pose proof (@record_duplicate x normalizedId w HF) as D.
  destruct (lasting_record x w) as (w1 & E1 & L1). rewrite E1 in *.
  destruct Hin as [->|Hin].
  - destruct (lasting_page page w1) as (w2 & E2 & (_ & _ & _ & Hd)).
    rewrite E2. simpl. apply Hd. now apply D.
  - destruct L1 as (_ & Hf & Hkn & _). apply IH; auto.
Qed.

Lemma page_loop_duplicates fuel batchSize skip record normalizedId w :
  faults w = [] ->
  0 < batchSize ->
  length (rows (source w)) <= skip + fuel * batchSize ->
  In record (skipn skip (rows (source w))) ->
  key record = Some normalizedId ->
  known normalizedId (target w) = true ->
  In (duplicate_line normalizedId)
     (Ledger.duplicateResults
        (globals (snd (page_loop rows migrate fuel batchSize skip
                         (length (rows (source w))) w)))).
Proof.
  intros HF Hb. revert skip w HF.
  induction fuel as [|fuel IH]; intros skip w HF Hlen Hin Hk Hn.
  - simpl in Hlen. rewrite skipn_all2 in Hin by lia. contradiction.
  - simpl. destruct (skip <? length (rows (source w))) eqn:E.
    + rewrite bind_run. rewrite read_source_answers by exact HF.
      rewrite bind_run.
      destruct (lasting_page (firstn batchSize (skipn skip (rows (source w)))) w)
        as (w1 & E1 & L1).
      rewrite E1.
      rewrite <- (firstn_skipn batchSize (skipn skip (rows (source w)))) in Hin.
      apply in_app_or in Hin as [Hin|Hin].
      * pose proof (@page_duplicates _ record normalizedId w HF Hin Hk Hn) as D.
        rewrite E1 in D. simpl in D.
        destruct (lasting_page_loop fuel batchSize (skip + batchSize)
                    (length (rows (source w))) w1) as (_ & _ & _ & Hd).
        now apply Hd.
      * destruct L1 as (Hs & Hf & Hkn & _).
        rewrite skipn_skipn in Hin.
        rewrite <- Hs. apply IH; auto.
        -- rewrite Hs. simpl in Hlen. lia.
        -- rewrite Hs. now rewrite (Nat.add_comm skip batchSize).
    + apply Nat.ltb_ge in E. rewrite skipn_all2 in Hin by lia. contradiction.
Qed.

(** *** The two passes *)

(** The shape shared by [migratePositions] and [migrateContacts]. *)
Variable zero : F.
Variable report : M (Ledger.t F) unit.
Variable handler : JsError.t -> M (Ledger.t F) unit.
Hypothesis report_untouched : respects untouched report.
Hypothesis handler_untouched : forall e, respects untouched (handler e).

Abbreviation pass :=
  (try_catch
     (reset_ledger zero ;;
      total <- read_source (fun s => length (rows s)) ;;
      page_loop rows migrate total 50 0 total ;;
      report)
     handler).

Lemma reset_ledger_run (w : World (Ledger.t F)) :
  exists w0,
    reset_ledger zero w = (Ok tt, w0)
    /\ source w0 = source w /\ target w0 = target w /\ faults w0 = faults w
    /\ Ledger.successResults (globals w0) = []
    /\ Ledger.duplicateResults (globals w0) = [].
Proof. eexists. split; [reflexivity|]. repeat split; reflexivity. Qed.

Lemma pass_lines_known (w : World (Ledger.t F)) :
  lines_known (snd (pass w)) /\ source (snd (pass w)) = source w.
Proof.
  unfold try_catch. rewrite bind_run.
  destruct (reset_ledger_run w) as (w0 & E0 & Hs0 & Ht0 & Hf0 & Ha0 & _).
  rewrite E0.
  assert (I0 : lines_known w0) by (intros line Hin; rewrite Ha0 in Hin;
                                   contradiction).
  rewrite bind_run.
  pose proof (@untouched_read_source (Ledger.t F) _
                (fun s => length (rows s)) w0) as U.
  destruct (read_source _ w0) as [[total|e] w1]; simpl in U.
  - pose proof (lines_known_untouched U I0) as I1.
    destruct U as (Hs1 & _).
    destruct (@lines_known_page_loop total 50 0 total w1 I1) as [I2 S2].
    rewrite bind_run.
    destruct (page_loop rows migrate total 50 0 total w1) as [[u|e] w2];
      simpl in I2, S2.
    + pose proof (report_untouched w2) as U3.
      destruct (report w2) as [[u3|e3] w3]; simpl in U3.
      * simpl. split; [now apply (lines_known_untouched U3)|].
        destruct U3 as (-> & _). congruence.
      * pose proof (handler_untouched e3 w3) as U4.
        pose proof (untouched_trans U3 U4) as U5.
        split; [now apply (lines_known_untouched U5)|].
        destruct U5 as (-> & _). congruence.
    + pose proof (handler_untouched e w2) as U4.
      split; [now apply (lines_known_untouched U4)|].
      destruct U4 as (-> & _). congruence.
  - pose proof (handler_untouched e w1) as U4.
    pose proof (untouched_trans U U4) as U5.
    split; [now apply (lines_known_untouched U5)|].
    destruct U5 as (-> & _). congruence.
Qed.

Lemma pass_duplicates record normalizedId (w : World (Ledger.t F)) :
  faults w = [] ->
  In record (rows (source w)) ->
  key record = Some normalizedId ->
  known normalizedId (target w) = true ->
  In (duplicate_line normalizedId)
     (Ledger.duplicateResults (globals (snd (pass w)))).
Proof.
  intros HF Hin Hk Hn.
  unfold try_catch. rewrite bind_run.
  destruct (reset_ledger_run w) as (w0 & E0 & Hs0 & Ht0 & Hf0 & _ & _).
  rewrite E0.
  assert (HF0 : faults w0 = []) by congruence.
  rewrite bind_run. rewrite read_source_answers by exact HF0.
  pose proof (@page_loop_duplicates (length (rows (source w0))) 50 0 record
                normalizedId w0 HF0) as D.
  assert (D' : In (duplicate_line normalizedId)
                 (Ledger.duplicateResults
                    (globals (snd (page_loop rows migrate
                       (length (rows (source w0))) 50 0
                       (length (rows (source w0))) w0))))).
  { apply D; try lia.
    - simpl. now rewrite Hs0.
    - exact Hk.
    - now rewrite Ht0. }
  clear D. rewrite bind_run.
  destruct (page_loop rows migrate _ 50 0 _ w0) as [[u|e] w2]; simpl in D'.
  - pose proof (report_untouched w2) as U3.
    destruct (report w2) as [[u3|e3] w3]; simpl in U3.
    + simpl. destruct U3 as (_ & _ & -> & _). exact D'.
    + pose proof (handler_untouched e3 w3) as U4.
      destruct U3 as (_ & _ & G3 & _). destruct U4 as (_ & _ & G4 & _).
      now rewrite G4, G3.
  - pose proof (handler_untouched e w2) as U4.
    destruct U4 as (_ & _ & G4 & _). now rewrite G4.
Qed.

(** Every record the first pass filed as a success is filed as a
    duplicate by a second pass over the target the first one left, when
    the stores answer the second pass. *)
Lemma second_pass_skips (w : World (Ledger.t F)) (line : string) :
  In line (Ledger.successResults (globals (snd (pass w)))) ->
  exists record normalizedId,
    In record (rows (source w))
    /\ key record = Some normalizedId
    /\ line = success_line normalizedId record
    /\ In (duplicate_line normalizedId)
         (Ledger.duplicateResults
            (globals (snd (pass (set_faults [] (snd (pass w))))))).
Proof.
  intros Hin. destruct (pass_lines_known w) as [I S].
  destruct (I line Hin) as (record & nid & Hrec & Hk & Hl & Hn).
  exists record, nid.
  split; [now rewrite <- S|]. split; [exact Hk|]. split; [exact Hl|].
  apply (@pass_duplicates record nid); [reflexivity | exact Hrec | exact Hk |].
  exact Hn.
Qed.

End PassFacts.

Lemma existsb_true_find {A} (p : A -> bool) (l : list A) :
  existsb p l = true -> exists x, find p l = Some x.
Proof.
  induction l as [|a l IH]; simpl; [discriminate|].
  destruct (p a); [now exists a | exact IH].
Qed.

Lemma position_known_stable {F} (normalizedId : string)
    (w w' : World (Ledger.t F)) :
  stable w w' ->
  position_known normalizedId (target w) = true ->
  position_known normalizedId (target w') = true.
Proof.
  intros (_ & _ & [ps E] & _) H. unfold position_known in *.
  rewrite E, existsb_app, H. reflexivity.
Qed.

Lemma contact_known_stable {F} (normalizedId : string)
    (w w' : World (Ledger.t F)) :
  stable w w' ->
  contact_known normalizedId (target w) = true ->
  contact_known normalizedId (target w') = true.
Proof.
  intros (_ & _ & _ & [cs E] & _) H. unfold contact_known in *.
  rewrite E, existsb_app, H. reflexivity.
Qed.

(** A position already in the target is skipped; the target is not
    touched. *)
Lemma migratePosition_skips h (oldPosition : OldPosition.t)
    (normalizedId : string) w :
  faults w = [] ->
  position_key oldPosition = Some normalizedId ->
  position_known normalizedId (target w) = true ->
  exists w',
    migratePosition h oldPosition w
    = (Ok (duplicate_position_line normalizedId), w')
    /\ target w' = target w.
Proof.
  intros HF Hk Hn. apply existsb_true_find in Hn as [x Hx].
  eexists.
  split; [exact (@migratePosition_existing h oldPosition normalizedId x w
                   HF Hk Hx)|].
  reflexivity.
Qed.

(** A contact already in the target is skipped; the target is not
    touched. *)
Lemma migrateContact_skips (oldContact : OldContact.t)
    (normalizedId : string) w :
  faults w = [] ->
  contact_key oldContact = Some normalizedId ->
  contact_known normalizedId (target w) = true ->
  exists w',
    migrateContact oldContact w
    = (Ok (duplicate_contact_line normalizedId), w')
    /\ target w' = target w.
Proof.
  intros HF Hk Hn. apply existsb_true_find in Hn as [x Hx].
  eexists.
  split; [exact (@migrateContact_existing oldContact normalizedId x w
                   HF Hk Hx)|].
  reflexivity.
Qed.

Ltac untouched_walk :=
  repeat first
    [ apply untouched_console_log
    | apply (respects_gets _ (@untouched_refl _))
    | apply (respects_bind (@untouched_trans _)); [|intros] ].

(** ** A fault-free position pass settles every record *)

Lemma position_create_answers {ST} (row : Position.t) (w : World ST) :
  faults w = [] ->
  existsb (fun p => String.eqb (Position.id p) (Position.id row))
          (Target.position (target w)) = false ->
  position_create row w
  = (Ok tt,
     set_target
       (Target.set_position (Target.position (target w) ++ [row]) (target w))
       w).
Proof.
  intros HF Hid. unfold position_create, bind, gets.
  rewrite io_answers by exact HF. now rewrite Hid.
Qed.

Lemma findCompany_none {F} (companyId : option string)
    (w : World (Ledger.t F)) :
  faults w = [] ->
  company_unresolved companyId (source w) (target w) ->
  findCompany companyId w = (Ok None, w).
Proof.
  intros HF U. destruct companyId as [rawId|]; [|reflexivity].
  destruct (Js.nonempty rawId) eqn:E.
  - destruct U as [U|U]; [congruence|].
    now apply findCompany_unresolved.
  - unfold findCompany. now rewrite E.
Qed.

(** A position with a well-formed identifier that is not in the target
    yet, and whose company resolves, is migrated. *)
Lemma migratePosition_fresh h (oldPosition : OldPosition.t)
    (normalizedId rawId : string) (co : Company.t) w :
  faults w = [] ->
  position_key oldPosition = Some normalizedId ->
  position_known normalizedId (target w) = false ->
  OldPosition.companyId oldPosition = Some rawId ->
  Js.nonempty rawId = true ->
  resolved rawId (source w) (target w) = Some co ->
  exists w',
    migratePosition h oldPosition w
    = (Ok (success_position_line normalizedId oldPosition), w').
Proof.
  intros HF Hk Hnew Hcid Hne Hres.
  set (w0 := snd (inc_total w)).
  assert (HF0 : faults w0 = []) by exact HF.
  destruct (@findCompany_resolved PositionFailures.t rawId co w0 HF0 Hne Hres)
    as (w2 & E2 & C2).
  assert (HF2 : faults w2 = []) by (destruct C2 as (_ & -> & _); exact HF0).
  destruct (@findOrCreateJobRole_answers h
              (OldPosition.position_title oldPosition)
              (OldPosition.job_description oldPosition) w2 HF2)
    as (jobRole & w3 & E3 & C3).
  assert (HF3 : faults w3 = []) by (destruct C3 as (_ & -> & _); exact HF2).
  assert (T3 : Target.position (target w3) = Target.position (target w)).
  { destruct C2 as (_ & _ & _ & _ & _ & X2 & _).
    destruct C3 as (_ & _ & _ & _ & _ & X3 & _).
    rewrite X3, X2. reflexivity. }
  set (row := newPositionData oldPosition normalizedId (select_ref co) jobRole
                (parseLocation (OldPosition.location oldPosition)) (clock w3)).
  assert (E5 : position_create row w3
               = (Ok tt,
                  set_target
                    (Target.set_position
                       (Target.position (target w3) ++ [row]) (target w3))
                    w3)).
  { apply position_create_answers; [exact HF3|]. rewrite T3. exact Hnew. }
  eexists.
  unfold migratePosition. unfold position_key in Hk. rewrite Hk, Hcid.
  unfold bind at 1. change (inc_total w) with (Ok tt, w0). cbv iota.
  unfold try_catch at 1. unfold bind at 1. unfold try_catch at 1.
  unfold bind at 1. unfold position_findUnique.
  rewrite read_target_answers by exact HF0.
  change (target w0) with (target w).
  rewrite (existsb_false_find _ _ Hnew).
  unfold ret at 1. cbv iota beta.
  unfold bind at 1. rewrite E2. cbv iota.
  unfold bind at 1. rewrite E3. cbv iota.
  unfold try_catch at 1. unfold bind at 1. unfold new_Date, gets.
  cbv iota beta. unfold bind at 1. fold row. rewrite E5. cbv iota.
  reflexivity.
Qed.

(** A settled position is left alone: the step changes neither store. *)
Lemma migratePosition_settled h (oldPosition : OldPosition.t) w :
  faults w = [] ->
  position_settled oldPosition w ->
  exists line w',
    migratePosition h oldPosition w = (Ok line, w')
    /\ target w' = target w.
Proof.
  intros HF S. unfold position_settled in S.
  destruct (position_key oldPosition) as [normalizedId|] eqn:Hk.
  - destruct (position_known normalizedId (target w)) eqn:Hn.
    + destruct (@migratePosition_skips h oldPosition normalizedId w HF Hk Hn)
        as (w' & E & T).
      now exists (duplicate_position_line normalizedId), w'.
    + destruct S as [S|S]; [discriminate|].
      set (w0 := snd (inc_total w)).
      assert (HF0 : faults w0 = []) by exact HF.
      pose proof (@findCompany_none PositionFailures.t
                    (OldPosition.companyId oldPosition) w0 HF0 S) as E2.
      eexists. eexists. split.
      * unfold migratePosition. unfold position_key in Hk. rewrite Hk.
        unfold bind at 1. change (inc_total w) with (Ok tt, w0). cbv iota.
        unfold try_catch at 1. unfold bind at 1. unfold try_catch at 1.
        unfold bind at 1. unfold position_findUnique.
        rewrite read_target_answers by exact HF0.
        change (target w0) with (target w).
        rewrite (existsb_false_find _ _ Hn).
        unfold ret at 1. cbv iota beta.
        unfold bind at 1. rewrite E2. cbv iota.
        reflexivity.
      * reflexivity.
  - eexists. eexists. split.
    + unfold migratePosition. unfold position_key in Hk. rewrite Hk.
      reflexivity.
    + reflexivity.
Qed.

Lemma resolved_same_company (rawId : string) (s : Source.t) (t t' : Target.t) :
  Target.company t' = Target.company t ->
  resolved rawId s t' = resolved rawId s t.
Proof.
  intros H. unfold resolved, resolved_by_id, resolved_by_domain.
  now rewrite H.
Qed.

Lemma position_settled_kept {ST} (oldPosition : OldPosition.t)
    (w w' : World ST) :
  source w' = source w ->
  Target.company (target w') = Target.company (target w) ->
  (exists ps,
     Target.position (target w') = (Target.position (target w) ++ ps)%list) ->
  position_settled oldPosition w -> position_settled oldPosition w'.
Proof.
  intros Hs Hc [ps Hp]. unfold position_settled.
  destruct (position_key oldPosition) as [normalizedId|]; [|trivial].
  intros [K|U].
  - left. unfold position_known in *. now rewrite Hp, existsb_app, K.
  - right. unfold company_unresolved in *.
    destruct (OldPosition.companyId oldPosition) as [rawId|]; [|trivial].
    destruct U as [U|U]; [now left | right].
    now rewrite Hs, (@resolved_same_company rawId (source w) _ _ Hc).
Qed.

(** After a step in a world whose stores answer, the position is settled. *)
Lemma migratePosition_leaves_settled h (oldPosition : OldPosition.t) w :
  faults w = [] ->
  position_settled oldPosition (snd (migratePosition h oldPosition w)).
Proof.
  intros HF. pose proof (stable_migratePosition h oldPosition w) as S.
  assert (Kept : position_settled oldPosition w ->
                 position_settled oldPosition
                   (snd (migratePosition h oldPosition w))).
  { destruct S as (Hs & _ & Hp & _ & Hc & _).
    now apply position_settled_kept. }
  unfold position_settled at 1.
  destruct (position_key oldPosition) as [normalizedId|] eqn:Hk; [|trivial].
  destruct (position_known normalizedId (target w)) eqn:Hn.
  - left. now apply (@position_known_stable _ normalizedId _ _ S).
  - destruct (OldPosition.companyId oldPosition) as [rawId|] eqn:Hcid.
    + destruct (Js.nonempty rawId) eqn:Hne.
      * destruct (resolved rawId (source w) (target w)) as [co|] eqn:Hres.
        -- left.
           destruct (@migratePosition_fresh h oldPosition normalizedId rawId
                       co w HF Hk Hn Hcid Hne Hres) as (w' & E).
           destruct (@migratePosition_success h oldPosition w _ w' E eq_refl)
             as (nid & Hk' & _ & Hkn).
           rewrite E. simpl. unfold position_key in Hk.
           assert (nid = normalizedId) by congruence. now subst nid.
        -- assert (X : position_settled oldPosition w).
           { unfold position_settled. rewrite Hk. right.
             unfold company_unresolved. rewrite Hcid. now right. }
           apply Kept in X. unfold position_settled in X.
           now rewrite Hk, Hcid in X.
      * assert (X : position_settled oldPosition w).
        { unfold position_settled. rewrite Hk. right.
          unfold company_unresolved. rewrite Hcid. now left. }
        apply Kept in X. unfold position_settled in X.
        now rewrite Hk, Hcid in X.
    + assert (X : position_settled oldPosition w).
      { unfold position_settled. rewrite Hk. right.
        unfold company_unresolved. now rewrite Hcid. }
      apply Kept in X. unfold position_settled in X.
      now rewrite Hk, Hcid in X.
Qed.

Lemma for_of_app {ST A} (xs ys : list A) (body : A -> M ST unit)
    (w : World ST) :
  for_of (xs ++ ys) body w
  = bind (for_of xs body) (fun _ => for_of ys body) w.
Proof.
  revert w. induction xs as [|x xs IH]; intros w; [reflexivity|].
  simpl. rewrite !bind_run.
  destruct (body x w) as [[u|e] w1]; [|reflexivity].
  rewrite IH, bind_run. reflexivity.
Qed.

Section PageLoopAll.
Context {F R : Type}.
Variable rows : Source.t -> list R.
Variable migrate : R -> M (Ledger.t F) string.
Hypothesis page_runs :
  forall page (w : World (Ledger.t F)),
    faults w = [] ->
    exists w',
      process_page migrate page w = (Ok tt, w')
      /\ faults w' = [] /\ source w' = source w.

Lemma process_page_app (xs ys : list R) (w : World (Ledger.t F)) :
  process_page migrate (xs ++ ys) w
  = bind (process_page migrate xs) (fun _ => process_page migrate ys) w.
Proof. apply for_of_app. Qed.

(** With one unit of fuel per row, and stores that answer, the page loop
    visits every row of the table, in order. *)
Lemma page_loop_enough (batchSize fuel skip : nat) (w : World (Ledger.t F)) :
  faults w = [] ->
  0 < batchSize ->
  length (rows (source w)) <= skip + fuel * batchSize ->
  page_loop rows migrate fuel batchSize skip (length (rows (source w))) w
  = process_page migrate (skipn skip (rows (source w))) w.
Proof.
  intros HF Hb. revert skip w HF.
  induction fuel as [|fuel IH]; intros skip w HF Hlen.
  - simpl in *. rewrite skipn_all2 by lia. reflexivity.
  - simpl. destruct (skip <? length (rows (source w))) eqn:E.
    + rewrite bind_run, read_source_answers by exact HF.
      rewrite <- (firstn_skipn batchSize (skipn skip (rows (source w)))) at 2.
      rewrite process_page_app, !bind_run.
      destruct (@page_runs (firstn batchSize (skipn skip (rows (source w)))) w HF)
        as (w1 & E1 & HF1 & Hs1).
      rewrite E1. rewrite skipn_skipn, (Nat.add_comm batchSize skip).
      rewrite <- Hs1. apply IH; [exact HF1|]. rewrite Hs1. simpl in Hlen. lia.
    + apply Nat.ltb_ge in E. rewrite skipn_all2 by lia. reflexivity.
Qed.

Lemma page_loop_all (w : World (Ledger.t F)) :
  faults w = [] ->
  page_loop rows migrate (length (rows (source w))) 50 0
    (length (rows (source w))) w
  = process_page migrate (rows (source w)) w.
Proof. intros HF. rewrite page_loop_enough by (auto; lia). reflexivity. Qed.

End PageLoopAll.

Lemma position_record_settles h (oldPosition : OldPosition.t)
    (w : World (Ledger.t PositionFailures.t)) :
  faults w = [] ->
  exists w',
    (result <- migratePosition h oldPosition ;; store_result result) w
    = (Ok tt, w')
    /\ faults w' = [] /\ source w' = source w
    /\ Target.company (target w') = Target.company (target w)
    /\ (exists ps,
          Target.position (target w')
          = (Target.position (target w) ++ ps)%list)
    /\ position_settled oldPosition w'.
Proof.
  intros HF. rewrite bind_run.
  pose proof (stable_migratePosition h oldPosition w) as S.
  pose proof (@migratePosition_leaves_settled h oldPosition w HF) as Q.
  destruct (proj1 (migratePosition_records h oldPosition w)) as [line E].
  destruct (migratePosition h oldPosition w) as [r w1]. simpl in E, S, Q.
  subst r.
  destruct (store_result_run line w1) as (w2 & E2 & Hs & Ht & Hf & _).
  exists w2. split; [exact E2|].
  destruct S as (Ss & Sf & Sp & _ & Sc & _).
  split; [rewrite Hf; auto|]. split; [congruence|].
  split; [now rewrite Ht|]. split; [now rewrite Ht|].
  apply (position_settled_kept oldPosition w1 w2); auto.
  - now rewrite Ht.
  - exists []. now rewrite Ht, app_nil_r.
Qed.

Lemma position_record_inert h (oldPosition : OldPosition.t)
    (w : World (Ledger.t PositionFailures.t)) :
  faults w = [] ->
  position_settled oldPosition w ->
  exists w',
    (result <- migratePosition h oldPosition ;; store_result result) w
    = (Ok tt, w')
    /\ faults w' = [] /\ source w' = source w /\ target w' = target w.
Proof.
  intros HF Q. rewrite bind_run.
  pose proof (stable_migratePosition h oldPosition w) as S.
  destruct (@migratePosition_settled h oldPosition w HF Q)
    as (line & w1 & E & T).
  rewrite E in *. simpl in S.
  destruct (store_result_run line w1) as (w2 & E2 & Hs & Ht & Hf & _).
  exists w2. split; [exact E2|].
  destruct S as (Ss & Sf & _).
  split; [rewrite Hf; auto|]. split; congruence.
Qed.

Lemma position_page_settles h (page : list OldPosition.t)
    (w : World (Ledger.t PositionFailures.t)) :
  faults w = [] ->
  exists w',
    process_page (migratePosition h) page w = (Ok tt, w')
    /\ faults w' = [] /\ source w' = source w
    /\ Target.company (target w') = Target.company (target w)
    /\ (exists ps,
          Target.position (target w')
          = (Target.position (target w) ++ ps)%list)
    /\ forall p, In p page -> position_settled p w'.
Proof.
  revert w. induction page as [|x page IH]; intros w HF.
  - exists w. repeat split; auto; [|contradiction].
    exists []. now rewrite app_nil_r.
  - change (process_page (migratePosition h) (x :: page) w)
      with (bind (result <- migratePosition h x ;; store_result result)
                 (fun _ => process_page (migratePosition h) page) w).
    rewrite bind_run.
    destruct (@position_record_settles h x w HF)
      as (w1 & E1 & HF1 & Hs1 & Hc1 & [ps1 Hp1] & Q1).
    rewrite E1.
    destruct (IH w1 HF1) as (w2 & E2 & HF2 & Hs2 & Hc2 & [ps2 Hp2] & Q2).
    exists w2. split; [exact E2|]. split; [exact HF2|].
    split; [congruence|]. split; [congruence|].
    split; [exists (ps1 ++ ps2)%list; now rewrite Hp2, Hp1, app_assoc|].
    intros p [<-|Hin]; [|now apply Q2].
    apply (position_settled_kept x w1 w2); auto. now exists ps2.
Qed.

Lemma position_page_inert h (page : list OldPosition.t)
    (w : World (Ledger.t PositionFailures.t)) :
  faults w = [] ->
  (forall p, In p page -> position_settled p w) ->
  exists w',
    process_page (migratePosition h) page w = (Ok tt, w')
    /\ faults w' = [] /\ source w' = source w /\ target w' = target w.
Proof.
  revert w. induction page as [|x page IH]; intros w HF Q.
  - exists w. repeat split; auto.
  - change (process_page (migratePosition h) (x :: page) w)
      with (bind (result <- migratePosition h x ;; store_result result)
                 (fun _ => process_page (migratePosition h) page) w).
    rewrite bind_run.
    destruct (@position_record_inert h x w HF (Q x (or_introl eq_refl)))
      as (w1 & E1 & HF1 & Hs1 & Ht1).
    rewrite E1.
    destruct (IH w1 HF1) as (w2 & E2 & HF2 & Hs2 & Ht2).
    + intros p Hin.
      apply (position_settled_kept p w w1);
        [exact Hs1 | now rewrite Ht1 | exists []; now rewrite Ht1, app_nil_r
        | apply Q; now right].
    + exists w2. split; [exact E2|]. split; [exact HF2|].
      split; congruence.
Qed.

Lemma position_page_runs h (page : list OldPosition.t)
    (w : World (Ledger.t PositionFailures.t)) :
  faults w = [] ->
  exists w',
    process_page (migratePosition h) page w = (Ok tt, w')
    /\ faults w' = [] /\ source w' = source w.
Proof.
  intros HF.
  destruct (@position_page_settles h page w HF) as (w' & E & HF' & Hs & _).
  now exists w'.
Qed.

Lemma untouched_position_report :
  respects untouched position_report.
Proof. unfold position_report. untouched_walk. Qed.

(** A whole position pass over stores that answer, from the world after
    the ledger reset to the world before the report. *)
Lemma migratePositions_answers h (w : World (Ledger.t PositionFailures.t)) :
  faults w = [] ->
  exists w0 w1,
    w0 = snd (reset_ledger PositionFailures.zero w)
    /\ process_page (migratePosition h) (Source.positions (source w)) w0
       = (Ok tt, w1)
    /\ untouched w1 (snd (migratePositions h w)).
Proof.
  intros HF. set (w0 := snd (reset_ledger PositionFailures.zero w)).
  assert (HF0 : faults w0 = []) by exact HF.
  destruct (@position_page_runs h (Source.positions (source w)) w0 HF0)
    as (w1 & E1 & HF1 & Hs1).
  exists w0, w1. split; [reflexivity|]. split; [exact E1|].
  unfold migratePositions, try_catch. rewrite bind_run.
  change (reset_ledger PositionFailures.zero w) with (Ok tt, w0).
  cbv iota. rewrite bind_run, read_source_answers by exact HF0.
  rewrite bind_run. unfold position_pages.
  rewrite (@page_loop_all _ _ Source.positions (migratePosition h) (@position_page_runs h) w0 HF0).
  change (source w0) with (source w). rewrite E1.
  pose proof (untouched_position_report w1) as U.
  destruct (position_report w1) as [[u|e] w2]; simpl in U; [exact U|].
  eapply untouched_trans; [exact U|].
  apply untouched_console_log.
Qed.

(** After a position pass over stores that answer, every source position
    is settled. *)
Lemma position_pass_settles h (w : World (Ledger.t PositionFailures.t)) :
  faults w = [] ->
  faults (snd (migratePositions h w)) = []
  /\ source (snd (migratePositions h w)) = source w
  /\ forall p, In p (Source.positions (source w)) ->
               position_settled p (snd (migratePositions h w)).
Proof.
  intros HF.
  destruct (@migratePositions_answers h w HF) as (w0 & w1 & -> & E1 & U).
  destruct (@position_page_settles h (Source.positions (source w))
              (snd (reset_ledger PositionFailures.zero w)) HF)
    as (w1' & E1' & HF1 & Hs1 & Hc1 & Hp1 & Q1).
  rewrite E1 in E1'. inversion E1'; subst w1'.
  destruct U as (Us & Ut & _ & Uf).
  split; [exact (Uf HF1)|]. split; [now rewrite Us, Hs1|].
  intros p Hin.
  apply (position_settled_kept p w1 _);
    [exact Us | now rewrite Ut | exists []; now rewrite Ut, app_nil_r
    | now apply Q1].
Qed.

(** A position pass over settled records leaves the target store alone. *)
Lemma position_pass_inert h (w : World (Ledger.t PositionFailures.t)) :
  faults w = [] ->
  (forall p, In p (Source.positions (source w)) -> position_settled p w) ->
  target (snd (migratePositions h w)) = target w.
Proof.
  intros HF Q.
  destruct (@migratePositions_answers h w HF) as (w0 & w1 & -> & E1 & U).
  destruct (@position_page_inert h (Source.positions (source w))
              (snd (reset_ledger PositionFailures.zero w)) HF Q)
    as (w1' & E1' & _ & _ & Ht).
  rewrite E1 in E1'. inversion E1'; subst w1'.
  destruct U as (_ & Ut & _). now rewrite Ut, Ht.
Qed.

(** The position migration is idempotent on the target store: over stores
    that answer, a second pass leaves the target exactly as the first pass
    left it. *)
Lemma position_pass_idempotent h (w : World (Ledger.t PositionFailures.t)) :
  faults w = [] ->
  target (snd (migratePositions h (snd (migratePositions h w))))
  = target (snd (migratePositions h w)).
Proof.
  intros HF. destruct (@position_pass_settles h w HF) as (HF1 & Hs1 & Q1).
  apply position_pass_inert; [exact HF1|].
  intros p Hin. apply Q1. now rewrite <- Hs1.
Qed.


